(** * Projected Gauss-Seidel impulse solver (Simbody, PGSImpulseSolver.cpp)

    A shallow embedding of the local utilities [doRowSum], [doRowSums],
    [doUpdate], [doUpdates], [boundUnilateral], [boundScalar],
    [boundVector], [boundFriction] and of [PGSImpulseSolver::solve].

    SimTK's [Real] is a precision-configurable floating point type.  The
    code is embedded once, over an interface [RealOps] that lists exactly
    the arithmetic the source uses, and the interface is instantiated twice:
    - [binary64]: IEEE 754 double precision (the kernel's primitive floats),
      on which every definition runs;
    - [ideal]: the real numbers, the arithmetic the comments of the source
      reason in ("0 <= scale < 1", "ensure that ||pi[IV]|| <= maxLen").
    What the code computes, compares, writes and leaves alone is proved for
    every instance, hence for the floating point build.  The statements
    proved for [ideal] alone name exact arithmetic in their text; where
    rounding, overflow or NaN make binary64 differ from it, the difference
    is shown on a sample evaluated in [binary64].  *)

From Stdlib Require Import ZArith Reals Lra Psatz Floats Uint63.
From stdpp Require Import base list.

Set Default Proof Using "Type".

(** ** The arithmetic the solver uses *)

Class RealOps (Real : Type) := {
  real_zero : Real;                      (* Real(0), 0 *)
  real_one : Real;                       (* 1 *)
  real_tenth : Real;                     (* the literal .1 *)
  real_eight_tenths : Real;              (* the literal .8 *)
  real_of_int : Z -> Real;               (* int to Real conversion *)
  real_add : Real -> Real -> Real;
  real_sub : Real -> Real -> Real;
  real_mul : Real -> Real -> Real;
  real_div : Real -> Real -> Real;
  real_sqrt : Real -> Real;              (* std::sqrt *)
  real_abs : Real -> Real;               (* std::abs *)
  real_ltb : Real -> Real -> bool;       (* a < b; a > b is written b < a *)
  real_leb : Real -> Real -> bool;       (* a <= b *)
}.

Declare Scope real_ops_scope.
Delimit Scope real_ops_scope with re.
Infix "+" := real_add : real_ops_scope.
Infix "-" := real_sub : real_ops_scope.
Infix "*" := real_mul : real_ops_scope.
Infix "/" := real_div : real_ops_scope.
Infix "<?" := real_ltb (at level 70, no associativity) : real_ops_scope.
Infix "<=?" := real_leb (at level 70, no associativity) : real_ops_scope.

(** IEEE 754 binary64, the [Real] of a default build. *)
Definition float_of_int (z : Z) : float :=
  match z with
  | Zneg q => PrimFloat.opp (PrimFloat.of_uint63 (Uint63.of_Z (Zpos q)))
  | _ => PrimFloat.of_uint63 (Uint63.of_Z z)
  end.

#[export] Instance binary64 : RealOps float := {|
  real_zero := 0%float;
  real_one := 1%float;
  real_tenth := 0x1.999999999999ap-4%float;
  real_eight_tenths := 0x1.999999999999ap-1%float;
  real_of_int := float_of_int;
  real_add := PrimFloat.add;
  real_sub := PrimFloat.sub;
  real_mul := PrimFloat.mul;
  real_div := PrimFloat.div;
  real_sqrt := PrimFloat.sqrt;
  real_abs := PrimFloat.abs;
  real_ltb := PrimFloat.ltb;
  real_leb := PrimFloat.leb;
|}.

(** Exact real arithmetic: no rounding, no overflow, no NaN.  Division is
    Stdlib's total one, so [x/0] is [0] here, where binary64 gives an
    infinity or a NaN; no statement proved at this instance rests on the
    value of such a quotient. *)
Definition Rltb (x y : R) : bool := if Rlt_dec x y then true else false.
Definition Rleb (x y : R) : bool := if Rle_dec x y then true else false.

#[export] Instance ideal : RealOps R := {|
  real_zero := 0%R;
  real_one := 1%R;
  real_tenth := (1 / 10)%R;
  real_eight_tenths := (8 / 10)%R;
  real_of_int := IZR;
  real_add := Rplus;
  real_sub := Rminus;
  real_mul := Rmult;
  real_div := Rdiv;
  real_sqrt := R_sqrt.sqrt;
  real_abs := Rabs;
  real_ltb := Rltb;
  real_leb := Rleb;
|}.

(** ** Data model *)

(** A [MultiplierIndex] is a position in the multiplier vector. *)
Definition MultiplierIndex := nat.

(** The enumerations of ImpulseSolver.h, with the values this file uses. *)
Inductive ContactType := Observe | Known | Participate.
Inductive UniCond := UniOff | UniActive.
Inductive BndCond := SlipLow | Engaged | SlipHigh.
Inductive FricCond := Sliding | Rolling.

#[export] Instance ContactType_eq_dec : EqDecision ContactType.
Proof. solve_decision. Defined.
#[export] Instance UniCond_eq_dec : EqDecision UniCond.
Proof. solve_decision. Defined.
#[export] Instance BndCond_eq_dec : EqDecision BndCond.
Proof. solve_decision. Defined.
#[export] Instance FricCond_eq_dec : EqDecision FricCond.
Proof. solve_decision. Defined.

(** The runtime records, with the members [solve] reads or writes. *)
Module UncondRT.
Record t := { m_mults : list MultiplierIndex }.
End UncondRT.

Module UniContactRT.
Record t (Real : Type) := {
  m_type : ContactType;
  m_sign : Real;
  m_Nk : MultiplierIndex;
  m_Fk : list MultiplierIndex;
  m_effMu : Real;
  m_knownPi : Real;
  m_contactCond : UniCond;
  m_frictionCond : FricCond;
}.
Arguments m_type {Real}.
Arguments m_sign {Real}.
Arguments m_Nk {Real}.
Arguments m_Fk {Real}.
Arguments m_effMu {Real}.
Arguments m_knownPi {Real}.
Arguments m_contactCond {Real}.
Arguments m_frictionCond {Real}.

(** Modelled from the spec: [hasFriction()] is defined in ImpulseSolver.h,
    which is not part of the sources.  A unilateral contact holds
    "optionally a pair of friction-multiplier indices": it has friction
    when that index set is not empty. *)
Definition hasFriction {Real} (rt : t Real) : bool :=
  negb (bool_decide (m_Fk rt = [])).

Definition set_contactCond {Real} (c : UniCond) (rt : t Real) : t Real :=
  {| m_type := m_type rt; m_sign := m_sign rt; m_Nk := m_Nk rt;
     m_Fk := m_Fk rt; m_effMu := m_effMu rt; m_knownPi := m_knownPi rt;
     m_contactCond := c; m_frictionCond := m_frictionCond rt |}.
Definition set_frictionCond {Real} (c : FricCond) (rt : t Real) : t Real :=
  {| m_type := m_type rt; m_sign := m_sign rt; m_Nk := m_Nk rt;
     m_Fk := m_Fk rt; m_effMu := m_effMu rt; m_knownPi := m_knownPi rt;
     m_contactCond := m_contactCond rt; m_frictionCond := c |}.
End UniContactRT.

Module UniSpeedRT.
(** Modelled from the spec: the struct is declared in ImpulseSolver.h,
    which is not part of the sources, and [solve] touches none of its
    members.  "Unilateral speed: a single index with its own one-sided
    condition". *)
Record t (Real : Type) := {
  m_ix : MultiplierIndex;
  m_sign : Real;
  m_speedCond : UniCond;
}.
Arguments m_ix {Real}.
Arguments m_sign {Real}.
Arguments m_speedCond {Real}.
End UniSpeedRT.

Module BoundedRT.
Record t (Real : Type) := {
  m_ix : MultiplierIndex;
  m_lb : Real;
  m_ub : Real;
  m_boundedCond : BndCond;
}.
Arguments m_ix {Real}.
Arguments m_lb {Real}.
Arguments m_ub {Real}.
Arguments m_boundedCond {Real}.
Definition set_boundedCond {Real} (c : BndCond) (rt : t Real) : t Real :=
  {| m_ix := m_ix rt; m_lb := m_lb rt; m_ub := m_ub rt; m_boundedCond := c |}.
End BoundedRT.

Module StateLtdFrictionRT.
Record t (Real : Type) := {
  m_Fk : list MultiplierIndex;
  m_knownN : Real;
  m_effMu : Real;
  m_frictionCond : FricCond;
}.
Arguments m_Fk {Real}.
Arguments m_knownN {Real}.
Arguments m_effMu {Real}.
Arguments m_frictionCond {Real}.
Definition set_frictionCond {Real} (c : FricCond) (rt : t Real) : t Real :=
  {| m_Fk := m_Fk rt; m_knownN := m_knownN rt; m_effMu := m_effMu rt;
     m_frictionCond := c |}.
End StateLtdFrictionRT.

Module ConstraintLtdFrictionRT.
Record t (Real : Type) := {
  m_Fk : list MultiplierIndex;
  m_Nk : list MultiplierIndex;
  m_effMu : Real;
  m_frictionCond : FricCond;
}.
Arguments m_Fk {Real}.
Arguments m_Nk {Real}.
Arguments m_effMu {Real}.
Arguments m_frictionCond {Real}.
Definition set_frictionCond {Real} (c : FricCond) (rt : t Real) : t Real :=
  {| m_Fk := m_Fk rt; m_Nk := m_Nk rt; m_effMu := m_effMu rt;
     m_frictionCond := c |}.
End ConstraintLtdFrictionRT.

(** The six [Array_<...RT>&] arguments of [solve], in and out. *)
Record Constraints (Real : Type) := {
  unconditional : list UncondRT.t;
  uniContact : list (UniContactRT.t Real);
  uniSpeed : list (UniSpeedRT.t Real);
  bounded : list (BoundedRT.t Real);
  consLtdFriction : list (ConstraintLtdFrictionRT.t Real);
  stateLtdFriction : list (StateLtdFrictionRT.t Real);
}.
Arguments unconditional {Real}.
Arguments uniContact {Real}.
Arguments uniSpeed {Real}.
Arguments bounded {Real}.
Arguments consLtdFriction {Real}.
Arguments stateLtdFriction {Real}.

(** The solver object: its configuration and its per-phase counters
    ([mutable] members, declared in the absent headers).  Counters are
    unbounded integers here. *)
Record PGSImpulseSolver (Real : Type) := {
  m_maxIters : Z;
  m_convergenceTol : Real;
  m_SOR : Real;
  m_nSolves : nat -> Z;
  m_nIters : nat -> Z;
  m_nFail : nat -> Z;
}.
Arguments m_maxIters {Real}.
Arguments m_convergenceTol {Real}.
Arguments m_SOR {Real}.
Arguments m_nSolves {Real}.
Arguments m_nIters {Real}.
Arguments m_nFail {Real}.

(** [++counter[phase]] *)
Definition incr (counter : nat -> Z) (phase : nat) : nat -> Z :=
  fun q => if decide (q = phase) then (counter q + 1)%Z else counter q.

(** ** The solver, for any arithmetic *)

Section PGS.
Context {Real : Type} {ops : RealOps Real}.
Local Open Scope real_ops_scope.

(** [Vector] and [Matrix] of SimTK.  An index outside the container is
    undefined behaviour in a release build of the source; here such a read
    gives 0 and such a write does nothing. *)
Definition Vector := list Real.
Definition Matrix := list (list Real).

(** [v[i]] *)
Definition elt (v : Vector) (i : nat) : Real := default real_zero (v !! i).
(** [A(i,j)] *)
Definition entry (A : Matrix) (i j : nat) : Real := elt (default [] (A !! i)) j.
(** [rows[i]] of an [Array_<MultiplierIndex>] *)
Definition ix (rows : list MultiplierIndex) (i : nat) : MultiplierIndex :=
  default 0%nat (rows !! i).

Definition square (x : Real) : Real := x * x.

(** [std::max(a,b)] is [(a < b) ? b : a]. *)
Definition real_max (a b : Real) : Real := if a <? b then b else a.

(** Calculate A[row]*pi, but only looking at the given columns. *)
Definition doRowSum (columns : list MultiplierIndex) (row : MultiplierIndex)
    (A : Matrix) (pi : Vector) : Real :=
  fold_left (fun rowSum cx => rowSum + entry A row cx * elt pi cx)
            columns real_zero.

(** Calculate sums=A[rows]*pi, but only looking at the given columns:
    the outer loop runs over the columns, the inner one over the rows. *)
Definition doRowSums (columns rows : list MultiplierIndex)
    (A : Matrix) (pi : Vector) : list Real :=
  fold_left
    (fun sums cx =>
       fold_left
         (fun sums i =>
            <[i := elt sums i + entry A (ix rows i) cx * elt pi cx]> sums)
         (seq 0 (length rows)) sums)
    columns (replicate (length rows) real_zero).

(** Given a rowSum, update one element of pi and return the squared error.
    A nonpositive diagonal of A quietly skips the update. *)
Definition doUpdate (row : MultiplierIndex) (A : Matrix) (rhs : Vector)
    (SOR rowSum : Real) (pi : Vector) : Real * Vector :=
  let Arr := entry A row row in
  let er := elt rhs row - rowSum in
  let pi' := if real_zero <? Arr
             then <[row := elt pi row + SOR * er / Arr]> pi
             else pi in
  (square er, pi').

(** Same for several rows; returns the sum of the squared errors. *)
Definition doUpdates (rows : list MultiplierIndex) (A : Matrix) (rhs : Vector)
    (SOR : Real) (rowSums : list Real) (pi : Vector) : Real * Vector :=
  fold_left
    (fun '(er2, pi) i =>
       let row := ix rows i in
       let Arr := entry A row row in
       let er := elt rhs row - elt rowSums i in
       let pi' := if real_zero <? Arr
                  then <[row := elt pi row + SOR * er / Arr]> pi
                  else pi in
       (er2 + square er, pi'))
    (seq 0 (length rows)) (real_zero, pi).

(** Ensure that sign*pi<=0. *)
Definition boundUnilateral (sign pi : Real) : UniCond * Real :=
  if real_zero <? sign * pi then (UniOff, real_zero) else (UniActive, pi).

(** Ensure that lb <= pi <= ub by moving pi to the nearest bound. *)
Definition boundScalar (lb pi ub : Real) : BndCond * Real :=
  if ub <? pi then (SlipHigh, ub)
  else if pi <? lb then (SlipLow, lb)
  else (Engaged, pi).

(** The sum of the squares of pi over an index set, as the loops
    [for (i...) n2 += square(pi[I[i]])] compute it. *)
Definition norm2 (I : list MultiplierIndex) (pi : Vector) : Real :=
  fold_left (fun n i => n + square (elt pi i)) I real_zero.

(** [for (i...) pi[I[i]] *= scale] *)
Definition scaleBy (scale : Real) (I : list MultiplierIndex) (pi : Vector)
    : Vector :=
  fold_left (fun pi i => <[i := elt pi i * scale]> pi) I pi.

(** Ensure that ||pi[IV]|| <= maxLen by scaling the vector to that length. *)
Definition boundVector (maxLen : Real) (IV : list MultiplierIndex)
    (pi : Vector) : FricCond * Vector :=
  let maxLen2 := square maxLen in
  let piNorm2 := norm2 IV pi in
  if piNorm2 <=? maxLen2 then (Rolling, pi)
  else
    let scale := real_sqrt (maxLen2 / piNorm2) in
    (Sliding, scaleBy scale IV pi).

(** Ensure that ||pi[IF]|| <= mu*||pi[IN]|| by scaling the friction vector. *)
Definition boundFriction (mu : Real) (IN IF : list MultiplierIndex)
    (pi : Vector) : FricCond * Vector :=
  let N2 := norm2 IN pi in
  let F2 := norm2 IF pi in
  let mu2N2 := mu * mu * N2 in
  if F2 <=? mu2N2 then (Rolling, pi)
  else
    let scale := real_sqrt (mu2N2 / F2) in
    (Sliding, scaleBy scale IF pi).

End PGS.

Arguments Vector Real : clear implicits.
Arguments Matrix Real : clear implicits.

(** ** One sweep and the iteration of [solve] *)

Section Solve.
Context {Real : Type} {ops : RealOps Real}.
Local Open Scope real_ops_scope.

(** What a sweep threads through its six loops: the multiplier vector and
    the two error accumulators [sum2all], [sum2enf]. *)
Record Sweep := {
  sw_pi : Vector Real;
  sum2all : Real;
  sum2enf : Real;
}.

(** A loop [for (k...) { RT& rt = array[k]; ... }] whose body may write
    to [rt]. *)
Fixpoint forEach {RT : Type} (body : RT -> Sweep -> RT * Sweep)
    (array : list RT) (s : Sweep) : list RT * Sweep :=
  match array with
  | [] => ([], s)
  | rt :: rest =>
      let '(rt', s1) := body rt s in
      let '(rest', s2) := forEach body rest s1 in
      (rt' :: rest', s2)
  end.

Section Bodies.
Variable participating : list MultiplierIndex.
Variable A : Matrix Real.
Variable rhs : Vector Real.
Variable sor : Real.

(** UNCONDITIONAL: these are always on. *)
Definition uncondBody (rt : UncondRT.t) (s : Sweep) : UncondRT.t * Sweep :=
  let rowSums := doRowSums participating (UncondRT.m_mults rt) A (sw_pi s) in
  let '(localEr2, pi) :=
    doUpdates (UncondRT.m_mults rt) A rhs sor rowSums (sw_pi s) in
  (rt, {| sw_pi := pi;
          sum2all := sum2all s + localEr2;
          sum2enf := sum2enf s + localEr2 |}).

(** UNILATERAL CONTACT NORMALS. *)
Definition normalBody (rt : UniContactRT.t Real) (s : Sweep)
    : UniContactRT.t Real * Sweep :=
  match UniContactRT.m_type rt with
  | Participate =>
      let Nk := UniContactRT.m_Nk rt in
      let rowSum := doRowSum participating Nk A (sw_pi s) in
      let '(er2, pi) := doUpdate Nk A rhs sor rowSum (sw_pi s) in
      let sum2all' := sum2all s + er2 in
      let '(cond, piNk) := boundUnilateral (UniContactRT.m_sign rt) (elt pi Nk) in
      let pi := <[Nk := piNk]> pi in
      (UniContactRT.set_contactCond cond rt,
       {| sw_pi := pi;
          sum2all := sum2all';
          sum2enf := if decide (cond = UniActive)
                     then sum2enf s + er2 else sum2enf s |})
  | _ => (rt, s)
  end.

(** UNILATERAL CONTACT FRICTION, limited by the normal multiplier or by a
    known normal force. *)
Definition frictionBody (rt : UniContactRT.t Real) (s : Sweep)
    : UniContactRT.t Real * Sweep :=
  if match UniContactRT.m_type rt with Observe => true | _ => false end
     || negb (UniContactRT.hasFriction rt)
  then (rt, s)
  else
    let Nk := UniContactRT.m_Nk rt in
    let Fk := UniContactRT.m_Fk rt in
    let rowSums := doRowSums participating Fk A (sw_pi s) in
    let '(er2, pi) := doUpdates Fk A rhs sor rowSums (sw_pi s) in
    let sum2all' := sum2all s + er2 in
    let N := real_abs (match UniContactRT.m_type rt with
                       | Known => UniContactRT.m_knownPi rt
                       | _ => elt pi Nk
                       end) in
    let '(cond, pi) := boundVector (UniContactRT.m_effMu rt * N) Fk pi in
    (UniContactRT.set_frictionCond cond rt,
     {| sw_pi := pi;
        sum2all := sum2all';
        sum2enf := if decide (cond = Rolling)
                   then sum2enf s + er2 else sum2enf s |}).

(** BOUNDED: conditional scalar constraints with constant bounds. *)
Definition boundedBody (rt : BoundedRT.t Real) (s : Sweep)
    : BoundedRT.t Real * Sweep :=
  let rx := BoundedRT.m_ix rt in
  let rowSum := doRowSum participating rx A (sw_pi s) in
  let '(er2, pi) := doUpdate rx A rhs sor rowSum (sw_pi s) in
  let sum2all' := sum2all s + er2 in
  let '(cond, pirx) :=
    boundScalar (BoundedRT.m_lb rt) (elt pi rx) (BoundedRT.m_ub rt) in
  let pi := <[rx := pirx]> pi in
  (BoundedRT.set_boundedCond cond rt,
   {| sw_pi := pi;
      sum2all := sum2all';
      sum2enf := if decide (cond = Engaged)
                 then sum2enf s + er2 else sum2enf s |}).

(** STATE LIMITED FRICTION: a vector whose maximum length is limited. *)
Definition stateLtdBody (rt : StateLtdFrictionRT.t Real) (s : Sweep)
    : StateLtdFrictionRT.t Real * Sweep :=
  let Fk := StateLtdFrictionRT.m_Fk rt in
  let rowSums := doRowSums participating Fk A (sw_pi s) in
  let '(localEr2, pi) := doUpdates Fk A rhs sor rowSums (sw_pi s) in
  let sum2all' := sum2all s + localEr2 in
  let '(cond, pi) :=
    boundVector (StateLtdFrictionRT.m_effMu rt * StateLtdFrictionRT.m_knownN rt)
                Fk pi in
  (StateLtdFrictionRT.set_frictionCond cond rt,
   {| sw_pi := pi;
      sum2all := sum2all';
      sum2enf := if decide (cond = Rolling)
                 then sum2enf s + localEr2 else sum2enf s |}).

(** CONSTRAINT LIMITED FRICTION: a vector whose maximum length is limited
    by the norm of other multipliers. *)
Definition consLtdBody (rt : ConstraintLtdFrictionRT.t Real) (s : Sweep)
    : ConstraintLtdFrictionRT.t Real * Sweep :=
  let Fk := ConstraintLtdFrictionRT.m_Fk rt in
  let Nk := ConstraintLtdFrictionRT.m_Nk rt in
  let rowSums := doRowSums participating Fk A (sw_pi s) in
  let '(localEr2, pi) := doUpdates Fk A rhs sor rowSums (sw_pi s) in
  let sum2all' := sum2all s + localEr2 in
  let '(cond, pi) :=
    boundFriction (ConstraintLtdFrictionRT.m_effMu rt) Nk Fk pi in
  (ConstraintLtdFrictionRT.set_frictionCond cond rt,
   {| sw_pi := pi;
      sum2all := sum2all';
      sum2enf := if decide (cond = Rolling)
                 then sum2enf s + localEr2 else sum2enf s |}).

(** The body of the [for (; its <= m_maxIters; ++its)] loop down to the
    last of its six partition loops: [sum2all = 0, sum2enf = 0], then the
    partitions in the order of the source.  [uniSpeed] is handed through:
    no loop of [solve] runs over it. *)
Definition sweep (cs : Constraints Real) (pi : Vector Real)
    : Constraints Real * Sweep :=
  let s := {| sw_pi := pi; sum2all := real_zero; sum2enf := real_zero |} in
  let '(uncond', s) := forEach uncondBody (unconditional cs) s in
  let '(uniCont', s) := forEach normalBody (uniContact cs) s in
  let '(uniCont', s) := forEach frictionBody uniCont' s in
  let '(bounded', s) := forEach boundedBody (bounded cs) s in
  let '(stateLtd', s) := forEach stateLtdBody (stateLtdFriction cs) s in
  let '(consLtd', s) := forEach consLtdBody (consLtdFriction cs) s in
  ({| unconditional := uncond';
      uniContact := uniCont';
      uniSpeed := uniSpeed cs;
      bounded := bounded';
      consLtdFriction := consLtd';
      stateLtdFriction := stateLtd' |}, s).

End Bodies.

(** The variables [solve] carries from one iteration to the next.
    [normRMSall] and [normRMSenf] start at [Infinity]: that is [None]
    here, every later value is [Some] of what the sweep measured.
    [prevNormRMSenf] is assigned from [normRMSenf] at the top of each
    iteration before it is read, so it is a local of [iteration]. *)
Record LoopState := {
  its : Z;
  cur_pi : Vector Real;
  cur_cons : Constraints Real;
  cur_sor : Real;
  normRMSall : option Real;
  normRMSenf : option Real;
  decreasing : bool;
  increasing : bool;
  converged : bool;
  nIters : nat -> Z;
}.

Section Loop.
Variable self : PGSImpulseSolver Real.
Variable phase : nat.
Variable participating : list MultiplierIndex.
Variable A : Matrix Real.
Variable rhs : Vector Real.

(** [const int p = (int)participating.size()] *)
Definition participating_count : Z := Z.of_nat (length participating).

(** [!increasing && rate > 1] with [rate = normRMSenf/prevNormRMSenf].
    In the first iteration [prevNormRMSenf] is [Infinity], and no value
    divided by [Infinity] compares greater than 1. *)
Definition gotWorse (increasing : bool) (prevNormRMSenf : option Real)
    (normRMSenf : Real) : bool :=
  negb increasing &&
  match prevNormRMSenf with
  | None => false
  | Some prev => real_one <? normRMSenf / prev
  end.

(** [if (sor > .1) sor = std::max(.8*sor, .1)] *)
Definition shrink (sor : Real) : Real :=
  if real_tenth <? sor
  then real_max (real_eight_tenths * sor) real_tenth
  else sor.

(** One pass through the loop body, up to and including the convergence
    test; [converged] tells whether the body left by [break]. *)
Definition iteration (s : LoopState) : LoopState :=
  let prevNormRMSenf := normRMSenf s in
  let '(cs, sw) :=
    sweep participating A rhs (cur_sor s) (cur_cons s) (cur_pi s) in
  let p := real_of_int participating_count in
  let normRMSall' := real_sqrt (sum2all sw / p) in
  let normRMSenf' := real_sqrt (sum2enf sw / p) in
  let worse := gotWorse (increasing s) prevNormRMSenf normRMSenf' in
  {| its := its s;
     cur_pi := sw_pi sw;
     cur_cons := cs;
     cur_sor := if worse then shrink (cur_sor s) else cur_sor s;
     normRMSall := Some normRMSall';
     normRMSenf := Some normRMSenf';
     decreasing := if worse then true else decreasing s;
     increasing := increasing s;
     converged := normRMSenf' <? m_convergenceTol self;
     nIters := incr (nIters s) phase |}.

(** [++its] at the end of an iteration that did not [break]. *)
Definition next (s : LoopState) : LoopState :=
  {| its := (its s + 1)%Z;
     cur_pi := cur_pi s; cur_cons := cur_cons s; cur_sor := cur_sor s;
     normRMSall := normRMSall s; normRMSenf := normRMSenf s;
     decreasing := decreasing s; increasing := increasing s;
     converged := converged s; nIters := nIters s |}.

(** The loop, entered with [n] iterations left before [its] exceeds
    [m_maxIters]. *)
Fixpoint iterate (n : nat) (s : LoopState) : LoopState :=
  match n with
  | O => s
  | S n' =>
      let s' := iteration s in
      if converged s' then s' else iterate n' (next s')
  end.

Definition initial (pi : Vector Real) (cs : Constraints Real) : LoopState :=
  {| its := 1%Z;
     cur_pi := pi;
     cur_cons := cs;
     cur_sor := m_SOR self;
     normRMSall := None;
     normRMSenf := None;
     decreasing := false;
     increasing := false;
     converged := false;
     nIters := m_nIters self |}.

End Loop.

(** What [solve] returns and leaves behind: the [bool], the multiplier
    vector, the six arrays and the solver object with its counters. *)
Record Outcome := {
  result : bool;
  out_pi : Vector Real;
  out_cons : Constraints Real;
  out_self : PGSImpulseSolver Real;
}.

(** [PGSImpulseSolver::solve].  Its output to the terminal is left out. *)
Definition solve (self : PGSImpulseSolver Real) (phase : nat)
    (participating : list MultiplierIndex) (A : Matrix Real) (D rhs pi : Vector Real)
    (cs : Constraints Real) : Outcome :=
  let nSolves := incr (m_nSolves self) phase in
  if decide (participating_count participating = 0%Z)
  then {| result := true; out_pi := pi; out_cons := cs;
          out_self := {| m_maxIters := m_maxIters self;
                         m_convergenceTol := m_convergenceTol self;
                         m_SOR := m_SOR self;
                         m_nSolves := nSolves;
                         m_nIters := m_nIters self;
                         m_nFail := m_nFail self |} |}
  else
    let s := iterate self phase participating A rhs
               (Z.to_nat (m_maxIters self)) (initial self pi cs) in
    {| result := converged s; out_pi := cur_pi s; out_cons := cur_cons s;
       out_self := {| m_maxIters := m_maxIters self;
                      m_convergenceTol := m_convergenceTol self;
                      m_SOR := m_SOR self;
                      m_nSolves := nSolves;
                      m_nIters := nIters s;
                      m_nFail := if converged s then m_nFail self
                                 else incr (m_nFail self) phase |} |}.

End Solve.

Arguments Sweep Real : clear implicits.
Arguments LoopState Real : clear implicits.
Arguments Outcome Real : clear implicits.

(** ** Vocabulary of the statements *)

Section Vocabulary.
Context {Real : Type} {ops : RealOps Real}.
Local Open Scope real_ops_scope.

(** The state [k] passes through the loop body lead to when none of them
    leaves by [break]: the state in which [its <= m_maxIters] is tested for
    the [k+1]-st time. *)
Fixpoint unbroken (self : PGSImpulseSolver Real) (phase : nat)
    (participating : list MultiplierIndex) (A : Matrix Real)
    (rhs : Vector Real) (k : nat) (s : LoopState Real) : LoopState Real :=
  match k with
  | O => s
  | S k' =>
      unbroken self phase participating A rhs k'
        (next (iteration self phase participating A rhs s))
  end.

(** [normRMSenf = sqrt(sum2enf/p)] as the sweep started in [s] measures
    it. *)
Definition rmsEnforced (participating : list MultiplierIndex)
    (A : Matrix Real) (rhs : Vector Real) (s : LoopState Real) : Real :=
  real_sqrt
    (sum2enf (snd (sweep participating A rhs
                     (cur_sor s) (cur_cons s) (cur_pi s)))
     / real_of_int (participating_count participating)).

(** A system whose only constraints are unilateral speed constraints. *)
Definition onlyUniSpeed (cs : Constraints Real) : Prop :=
  unconditional cs = [] /\ uniContact cs = [] /\ bounded cs = [] /\
  consLtdFriction cs = [] /\ stateLtdFriction cs = [].

(** Step 3 of a sweep as the specification words it, for one contact that
    has friction: update the friction multipliers, cap them with
    [mu*|normal|], where the normal is the fixed value for a [Known] normal
    and the current multiplier otherwise, record the status and count the
    error as enforced when it is [Rolling].  The normal's mode decides
    nothing else. *)
Definition frictionStep_any_mode (participating : list MultiplierIndex)
    (A : Matrix Real) (rhs : Vector Real) (sor : Real)
    (rt : UniContactRT.t Real) (s : Sweep Real)
    : UniContactRT.t Real * Sweep Real :=
  let Fk := UniContactRT.m_Fk rt in
  let '(er2, pi) :=
    doUpdates Fk A rhs sor (doRowSums participating Fk A (sw_pi s)) (sw_pi s) in
  let normal := match UniContactRT.m_type rt with
                | Known => UniContactRT.m_knownPi rt
                | _ => elt pi (UniContactRT.m_Nk rt)
                end in
  let '(cond, pi) :=
    boundVector (UniContactRT.m_effMu rt * real_abs normal) Fk pi in
  (UniContactRT.set_frictionCond cond rt,
   {| sw_pi := pi;
      sum2all := sum2all s + er2;
      sum2enf := if decide (cond = Rolling)
                 then sum2enf s + er2 else sum2enf s |}).

(** "Applying the operator a second time to its own output yields the same
    result as applying it once": the same multiplier(s) and the same
    reported status, for each of the four projections. *)
Definition boundUnilateral_twice_as_once (sign pi : Real) : Prop :=
  boundUnilateral sign (snd (boundUnilateral sign pi))
  = boundUnilateral sign pi.

Definition boundScalar_twice_as_once (lb pi ub : Real) : Prop :=
  boundScalar lb (snd (boundScalar lb pi ub)) ub = boundScalar lb pi ub.

Definition boundVector_twice_as_once (maxLen : Real)
    (IV : list MultiplierIndex) (pi : Vector Real) : Prop :=
  boundVector maxLen IV (snd (boundVector maxLen IV pi))
  = boundVector maxLen IV pi.

Definition boundFriction_twice_as_once (mu : Real)
    (IN IF : list MultiplierIndex) (pi : Vector Real) : Prop :=
  boundFriction mu IN IF (snd (boundFriction mu IN IF pi))
  = boundFriction mu IN IF pi.

(** Step 3 of a sweep for one contact that has friction, given the value
    [normal] of its normal force: update the friction multipliers, cap them
    with [mu*|normal|], record the status and count the error as enforced
    when it is [Rolling]. *)
Definition frictionStep_with_normal (participating : list MultiplierIndex)
    (A : Matrix Real) (rhs : Vector Real) (sor : Real) (normal : Real)
    (rt : UniContactRT.t Real) (s : Sweep Real)
    : UniContactRT.t Real * Sweep Real :=
  let Fk := UniContactRT.m_Fk rt in
  let '(er2, pi) :=
    doUpdates Fk A rhs sor (doRowSums participating Fk A (sw_pi s)) (sw_pi s) in
  let '(cond, pi) :=
    boundVector (UniContactRT.m_effMu rt * real_abs normal) Fk pi in
  (UniContactRT.set_frictionCond cond rt,
   {| sw_pi := pi;
      sum2all := sum2all s + er2;
      sum2enf := if decide (cond = Rolling)
                 then sum2enf s + er2 else sum2enf s |}).

(** From [s] to [s'] the squared error [e] is added to [sum2all], and to
    [sum2enf] as well exactly when [enforced] holds. *)
Definition accounts (e : Real) (enforced : bool) (s s' : Sweep Real) : Prop :=
  sum2all s' = sum2all s + e /\
  sum2enf s' = if enforced then sum2enf s + e else sum2enf s.

(** The comparisons of the arithmetic place [x], [.8*x] and [.1] as the
    order of the numbers does: [x < x] fails and, when [x > .1], so do
    [x < .1] and [x < .8*x]. *)
Definition sor_ordered_at (x : Real) : bool :=
  negb (x <? x) &&
  (negb (real_tenth <? x) ||
   (negb (x <? real_tenth) && negb (x <? real_eight_tenths * x))).

End Vocabulary.

(** The vector-norm cap as the specification states it, in exact
    arithmetic: unchanged and "rolling" when the norm over [IV] is at most
    [L]; otherwise scaled by [L/||pi[IV]||], a factor strictly between 0
    and 1, to norm exactly [L], and "sliding"; nothing outside [IV]
    changes. *)
Definition boundVector_as_specified (L : R) (IV : list MultiplierIndex)
    (pi : Vector R) : Prop :=
  let len := R_sqrt.sqrt (norm2 IV pi) in
  let out := boundVector L IV pi in
  ((len <= L)%R -> out = (Rolling, pi)) /\
  ((L < len)%R ->
     let c := (L / len)%R in
     (0 < c < 1)%R /\
     fst out = Sliding /\
     (forall i, i ∈ IV -> elt (snd out) i = (c * elt pi i)%R) /\
     R_sqrt.sqrt (norm2 IV (snd out)) = L) /\
  (forall j, j ∉ IV -> elt (snd out) j = elt pi j).

(** The order of the two error sums that every loop of a sweep keeps. *)
Definition sums_ordered (s : Sweep R) : Prop :=
  (0 <= sum2enf s)%R /\ (sum2enf s <= sum2all s)%R.

(** ** What a call may write, and what it only reads *)

Section Writes.
Context {Real : Type}.

(** The multiplier a contact's normal loop writes: [pi[m_Nk]], for a
    participating normal only. *)
Definition normalWrites (rt : UniContactRT.t Real) : list MultiplierIndex :=
  match UniContactRT.m_type rt with
  | Participate => [UniContactRT.m_Nk rt]
  | _ => []
  end.

(** The multipliers a contact's friction loop writes: [pi[m_Fk]], unless
    the contact is passed over. *)
Definition frictionWrites (rt : UniContactRT.t Real) : list MultiplierIndex :=
  if match UniContactRT.m_type rt with Observe => true | _ => false end
     || negb (UniContactRT.hasFriction rt)
  then [] else UniContactRT.m_Fk rt.

(** Every multiplier index some loop of a sweep assigns to. *)
Definition touched (cs : Constraints Real) : list MultiplierIndex :=
  concat (map UncondRT.m_mults (unconditional cs))
  ++ concat (map normalWrites (uniContact cs))
  ++ concat (map frictionWrites (uniContact cs))
  ++ map BoundedRT.m_ix (bounded cs)
  ++ concat (map StateLtdFrictionRT.m_Fk (stateLtdFriction cs))
  ++ concat (map ConstraintLtdFrictionRT.m_Fk (consLtdFriction cs)).

(** The members of a record other than its status outputs. *)
Definition contactInputs (rt : UniContactRT.t Real) :=
  (UniContactRT.m_type rt, UniContactRT.m_sign rt, UniContactRT.m_Nk rt,
   UniContactRT.m_Fk rt, UniContactRT.m_effMu rt, UniContactRT.m_knownPi rt).

Definition boundedInputs (rt : BoundedRT.t Real) :=
  (BoundedRT.m_ix rt, BoundedRT.m_lb rt, BoundedRT.m_ub rt).

Definition stateLtdInputs (rt : StateLtdFrictionRT.t Real) :=
  (StateLtdFrictionRT.m_Fk rt, StateLtdFrictionRT.m_knownN rt,
   StateLtdFrictionRT.m_effMu rt).

Definition consLtdInputs (rt : ConstraintLtdFrictionRT.t Real) :=
  (ConstraintLtdFrictionRT.m_Fk rt, ConstraintLtdFrictionRT.m_Nk rt,
   ConstraintLtdFrictionRT.m_effMu rt).

(** Two sets of constraint arrays that differ in status outputs only. *)
Definition sameInputs (cs cs' : Constraints Real) : Prop :=
  unconditional cs' = unconditional cs /\
  map contactInputs (uniContact cs') = map contactInputs (uniContact cs) /\
  uniSpeed cs' = uniSpeed cs /\
  map boundedInputs (bounded cs') = map boundedInputs (bounded cs) /\
  map consLtdInputs (consLtdFriction cs')
  = map consLtdInputs (consLtdFriction cs) /\
  map stateLtdInputs (stateLtdFriction cs')
  = map stateLtdInputs (stateLtdFriction cs).

End Writes.

(** A sweep state whose multiplier vector has the length of [v] and the
    entry of [v] at [j]. *)
Definition keeps {Real : Type} {ops : RealOps Real}
    (v : Vector Real) (j : nat) (s : Sweep Real) : Prop :=
  length (sw_pi s) = length v /\ elt (sw_pi s) j = elt v j.

(** ** The topology of a rigid body node (RigidBodyNode.h) *)

Module RigidBodyNode.

(** A pointer to a node or to the tree: [None] is the null pointer. *)
Definition Ptr := option nat.

(** The members of [RigidBodyNode] that its topological accessors use.
    The mass properties and the joint frames, held by value and only handed
    out by their getters, are left out. *)
Record t := {
  uIndex : Z;
  qIndex : Z;
  uSqIndex : Z;
  tree : Ptr;
  parent : Ptr;
  children : list Ptr;
  level : Z;
  nodeNum : Z;
}.

(** The constructor: every index at -1, no tree, no parent, no child. *)
Definition construct : t :=
  {| uIndex := -1; qIndex := -1; uSqIndex := -1; tree := None;
     parent := None; children := []; level := -1; nodeNum := -1 |}.

Definition setTreeAndParent (t0 p : Ptr) (n : t) : t :=
  {| uIndex := uIndex n; qIndex := qIndex n; uSqIndex := uSqIndex n;
     tree := t0; parent := p; children := children n; level := level n;
     nodeNum := nodeNum n |}.

Definition setNodeNum (k : Z) (n : t) : t :=
  {| uIndex := uIndex n; qIndex := qIndex n; uSqIndex := uSqIndex n;
     tree := tree n; parent := parent n; children := children n;
     level := level n; nodeNum := k |}.

Definition setLevel (i : Z) (n : t) : t :=
  {| uIndex := uIndex n; qIndex := qIndex n; uSqIndex := uSqIndex n;
     tree := tree n; parent := parent n; children := children n;
     level := i; nodeNum := nodeNum n |}.

Definition getNChildren (n : t) : Z := Z.of_nat (length (children n)).

(** [i<(int)children.size() ? children[i] : 0].  A negative [i] passes the
    test and indexes the vector out of bounds: that is [None] here, an
    access the language leaves undefined. *)
Definition getChild (n : t) (i : Z) : option Ptr :=
  if (i <? getNChildren n)%Z
  then (if (i <? 0)%Z then None else children n !! Z.to_nat i)
  else Some None.

Definition isGroundNode (n : t) : bool := (level n =? 0)%Z.
Definition isBaseNode (n : t) : bool := (level n =? 1)%Z.

(** [fromB(x)] is [x[nodeNum]]: the node's entry in a per-body pool.
    [None] is an index outside the pool. *)
Definition fromB {T : Type} (n : t) (x : list T) : option T :=
  if (nodeNum n <? 0)%Z then None else x !! Z.to_nat (nodeNum n).

(** An assignment through the reference [toB(x)] returns: [x[nodeNum] = v].
    [None] is an index outside the pool. *)
Definition toB_assign {T : Type} (n : t) (x : list T) (v : T)
    : option (list T) :=
  if (nodeNum n <? 0)%Z then None
  else if decide (Z.to_nat (nodeNum n) < length x)
       then Some (<[Z.to_nat (nodeNum n) := v]> x)
       else None.

End RigidBodyNode.

(** ** Sample systems *)

(** A solver with at most 100 iterations, tolerance 2^-40 and relaxation
    factor 1, all counters at 0; in binary64 and in exact arithmetic. *)
Definition sampleSolver : PGSImpulseSolver float :=
  {| m_maxIters := 100; m_convergenceTol := 0x1p-40%float; m_SOR := 1%float;
     m_nSolves := fun _ => 0%Z; m_nIters := fun _ => 0%Z;
     m_nFail := fun _ => 0%Z |}.

Definition idealSolver : PGSImpulseSolver R :=
  {| m_maxIters := 100; m_convergenceTol := (1 / 1000)%R; m_SOR := 1%R;
     m_nSolves := fun _ => 0%Z; m_nIters := fun _ => 0%Z;
     m_nFail := fun _ => 0%Z |}.

(** One unconditional constraint over the multipliers 0 and 1. *)
Definition uncondPair (Real : Type) : Constraints Real :=
  {| unconditional := [ {| UncondRT.m_mults := [0; 1] |} ];
     uniContact := []; uniSpeed := []; bounded := [];
     consLtdFriction := []; stateLtdFriction := [] |}.

(** One unilateral speed constraint on multiplier 0 and nothing else. *)
Definition speedOnly : Constraints float :=
  {| unconditional := []; uniContact := [];
     uniSpeed := [ {| UniSpeedRT.m_ix := 0; UniSpeedRT.m_sign := 1%float;
                      UniSpeedRT.m_speedCond := UniOff |} ];
     bounded := []; consLtdFriction := []; stateLtdFriction := [] |}.

(** The same single multiplier posed as a bounded scalar in [0, 10]. *)
Definition boundedOnly : Constraints float :=
  {| unconditional := []; uniContact := []; uniSpeed := [];
     bounded := [ {| BoundedRT.m_ix := 0; BoundedRT.m_lb := 0%float;
                     BoundedRT.m_ub := 10%float;
                     BoundedRT.m_boundedCond := SlipLow |} ];
     consLtdFriction := []; stateLtdFriction := [] |}.

(** A unilateral contact with normal multiplier 2 and friction multipliers
    0 and 1, friction coefficient 1/2, in a given mode. *)
Definition sampleContact (type : ContactType) : UniContactRT.t float :=
  {| UniContactRT.m_type := type; UniContactRT.m_sign := 1%float;
     UniContactRT.m_Nk := 2; UniContactRT.m_Fk := [0; 1];
     UniContactRT.m_effMu := 0x1p-1%float; UniContactRT.m_knownPi := 1%float;
     UniContactRT.m_contactCond := UniActive;
     UniContactRT.m_frictionCond := Sliding |}.

(** The 3 by 3 identity, and a sweep about to start from [pi = (0, 0, 1)]. *)
Definition identity3 : Matrix float :=
  [[1; 0; 0]; [0; 1; 0]; [0; 0; 1]]%float.

Definition sweepStart : Sweep float :=
  {| sw_pi := [0; 0; 1]%float; sum2all := 0%float; sum2enf := 0%float |}.

(** The same in exact arithmetic: a contact, a bounded scalar in [0, 1],
    the identity and a sweep about to start from [pi = (6, 8, 5)]. *)
Definition idealContact (type : ContactType) : UniContactRT.t R :=
  {| UniContactRT.m_type := type; UniContactRT.m_sign := 1%R;
     UniContactRT.m_Nk := 2; UniContactRT.m_Fk := [0; 1];
     UniContactRT.m_effMu := (1 / 2)%R; UniContactRT.m_knownPi := 1%R;
     UniContactRT.m_contactCond := UniActive;
     UniContactRT.m_frictionCond := Rolling |}.

Definition idealBounded : BoundedRT.t R :=
  {| BoundedRT.m_ix := 0; BoundedRT.m_lb := 0%R; BoundedRT.m_ub := 1%R;
     BoundedRT.m_boundedCond := Engaged |}.

Definition idealIdentity3 : Matrix R :=
  [[1; 0; 0]; [0; 1; 0]; [0; 0; 1]]%R.

Definition idealSweepStart : Sweep R :=
  {| sw_pi := [6; 8; 5]%R; sum2all := 0%R; sum2enf := 0%R |}.

(** One unconditional constraint over multiplier 0, and solvers with a
    tolerance of zero and with no iteration allowed. *)
Definition uncondSingle : Constraints R :=
  {| unconditional := [ {| UncondRT.m_mults := [0] |} ];
     uniContact := []; uniSpeed := []; bounded := [];
     consLtdFriction := []; stateLtdFriction := [] |}.

Definition zeroTolSolver : PGSImpulseSolver R :=
  {| m_maxIters := 3; m_convergenceTol := 0%R; m_SOR := 1%R;
     m_nSolves := fun _ => 0%Z; m_nIters := fun _ => 0%Z;
     m_nFail := fun _ => 0%Z |}.

Definition noBudgetSolver : PGSImpulseSolver float :=
  {| m_maxIters := 0; m_convergenceTol := 0x1p-40%float; m_SOR := 1%float;
     m_nSolves := fun _ => 0%Z; m_nIters := fun _ => 0%Z;
     m_nFail := fun _ => 0%Z |}.

(** A solver allowed a single sweep, and its call on two unconditional
    multipliers with [A = (4 1; 1 3)], [rhs = (1, 2)] and [pi = (0, 0)]. *)
Definition oneSweepSolver : PGSImpulseSolver float :=
  {| m_maxIters := 1; m_convergenceTol := 0x1p-40%float; m_SOR := 1%float;
     m_nSolves := fun _ => 0%Z; m_nIters := fun _ => 0%Z;
     m_nFail := fun _ => 0%Z |}.

Definition oneSweepCall : Outcome float :=
  solve oneSweepSolver 0 [0; 1] [[4; 1]; [1; 3]]%float [] [1; 2]%float
    [0; 0]%float (uncondPair float).

(** A system on which the sweeps diverge: the two unconditional rows of
    [A = (1 2; 2 1)] with [rhs = (1, -1)], started from [pi = (0, 0)].  The
    residual grows by the factor [1 + sor] from one sweep to the next. *)
Definition divergingA : Matrix float := [[1; 2]; [2; 1]]%float.

Definition divergingRun (k : nat) : LoopState float :=
  unbroken sampleSolver 0 [0; 1] divergingA [1; -1]%float k
    (initial sampleSolver [0; 0]%float (uncondPair float)).

(** A sweep whose row sum overflows: [2^1023 * 4] is [+inf] and the next
    product is [-inf], so the sum of the two is NaN. *)
Definition overflowA : Matrix float :=
  [[0x1p1023; -0x1p1023]; [-0x1p1023; 0x1p1023]]%float.

Definition overflowSweep : Sweep float :=
  snd (sweep [0; 1] overflowA [0; 0]%float 1%float (uncondPair float)
         [4; 4]%float).

(** Two unconditional rows coupled by [10^30] (the nearest double), with
    [rhs = (1, 1)] and [pi = (0, 0)]: the iterates grow by that factor from
    sweep to sweep until they overflow. *)
Definition couplingA : Matrix float :=
  [[1; 0x1.93e5939a08ceap+99]; [0x1.93e5939a08ceap+99; 1]]%float.

Definition couplingRun (k : nat) : LoopState float :=
  unbroken sampleSolver 0 [0; 1] couplingA [1; 1]%float k
    (initial sampleSolver [0; 0]%float (uncondPair float)).

(** One participating contact with friction and nothing else. *)
Definition contactOnly : Constraints float :=
  {| unconditional := []; uniContact := [sampleContact Participate];
     uniSpeed := []; bounded := [];
     consLtdFriction := []; stateLtdFriction := [] |}.

(** ** Control flow of [solve], for any arithmetic *)

Section ControlFlow.
Context {Real : Type} {ops : RealOps Real}.
Local Open Scope real_ops_scope.

Section Run.
Variable self : PGSImpulseSolver Real.
Variable phase : nat.
Variable participating : list MultiplierIndex.
Variable A : Matrix Real.
Variable rhs : Vector Real.

Local Abbreviation step := (iteration self phase participating A rhs).
Local Abbreviation loop := (iterate self phase participating A rhs).
Local Abbreviation run := (unbroken self phase participating A rhs).

Lemma iteration_converged s :
  converged (step s)
  = (rmsEnforced participating A rhs s <? m_convergenceTol self).
Proof.
  unfold iteration, rmsEnforced.
  destruct (sweep _ _ _ _ _ _) as [cs sw]. reflexivity.
Qed.

Lemma iteration_nIters s :
  nIters (step s) = incr (nIters s) phase.
Proof.
  unfold iteration.
  destruct (sweep _ _ _ _ _ _) as [cs sw]. reflexivity.
Qed.

Lemma iteration_sweep s :
  cur_pi (step s)
  = sw_pi (snd (sweep participating A rhs (cur_sor s) (cur_cons s) (cur_pi s)))
  /\
  cur_cons (step s)
  = fst (sweep participating A rhs (cur_sor s) (cur_cons s) (cur_pi s)).
Proof.
  unfold iteration.
  destruct (sweep _ _ _ _ _ _) as [cs sw]. split; reflexivity.
Qed.

Lemma unbroken_S k s :
  run (S k) s = next (step (run k s)).
Proof.
  revert s. induction k as [|k IH]; intros s; [reflexivity|].
  change (run (S (S k)) s) with (run (S k) (next (step s))).
  rewrite IH. reflexivity.
Qed.

Lemma unbroken_converged k s :
  converged (run (S k) s)
  = (rmsEnforced participating A rhs (run k s) <? m_convergenceTol self).
Proof. rewrite unbroken_S. apply iteration_converged. Qed.

Lemma unbroken_nIters k s :
  nIters (run k s) phase = (nIters s phase + Z.of_nat k)%Z.
Proof.
  revert s. induction k as [|k IH]; intros s.
  - simpl. lia.
  - change (run (S k) s) with (run k (next (step s))).
    rewrite IH. cbn [next nIters]. rewrite iteration_nIters.
    unfold incr. rewrite decide_True by reflexivity. lia.
Qed.

Lemma unbroken_nIters_other k s q :
  q <> phase -> nIters (run k s) q = nIters s q.
Proof.
  intros Hq. revert s. induction k as [|k IH]; intros s; [reflexivity|].
  change (run (S k) s) with (run k (next (step s))).
  rewrite IH. cbn [next nIters]. rewrite iteration_nIters.
  unfold incr. rewrite decide_False by assumption. reflexivity.
Qed.

(** The loop either leaves by [break] at the first pass whose state is
    [converged], or runs all its [n] passes. *)
Lemma iterate_cases n s :
  converged s = false ->
  (converged (loop n s) = true /\
   exists k, 1 <= k <= n /\
     converged (run k s) = true /\
     (forall j, 1 <= j < k -> converged (run j s) = false) /\
     next (loop n s) = run k s)
  \/
  (converged (loop n s) = false /\
   (forall j, 1 <= j <= n -> converged (run j s) = false) /\
   loop n s = run n s).
Proof.
  revert s. induction n as [|n IH]; intros s Hs.
  - right. split; [exact Hs|]. split; [intros j Hj; lia | reflexivity].
  - cbn [iterate].
    destruct (converged (step s)) eqn:Hc.
    + left. split; [exact Hc|]. exists 1.
      split; [lia|]. split; [exact Hc|]. split; [intros j Hj; lia|].
      reflexivity.
    + destruct (IH (next (step s)) Hc)
        as [(Hconv & k & Hk & Hck & Hbefore & Hst) | (Hconv & Hnone & Hst)].
      * left. split; [exact Hconv|]. exists (S k).
        split; [lia|]. split; [exact Hck|]. split; [|exact Hst].
        intros [|[|j]] Hj; [lia | exact Hc |].
        apply (Hbefore (S j)). lia.
      * right. split; [exact Hconv|]. split; [|exact Hst].
        intros [|[|j]] Hj; [lia | exact Hc |].
        apply (Hnone (S j)). lia.
Qed.

End Run.
Section SolveOutcome.
Variable self : PGSImpulseSolver Real.
Variable phase : nat.
Variable participating : list MultiplierIndex.
Variable A : Matrix Real.
Variable D rhs pi : Vector Real.
Variable cs : Constraints Real.

Lemma participating_count_nonzero :
  participating <> [] -> participating_count participating <> 0%Z.
Proof.
  unfold participating_count. destruct participating; [congruence|].
  intros _. cbn [length]. lia.
Qed.

Lemma solve_nonempty :
  participating <> [] ->
  let s := iterate self phase participating A rhs
             (Z.to_nat (m_maxIters self)) (initial self pi cs) in
  result (solve self phase participating A D rhs pi cs) = converged s /\
  out_pi (solve self phase participating A D rhs pi cs) = cur_pi s /\
  out_cons (solve self phase participating A D rhs pi cs) = cur_cons s /\
  m_nIters (out_self (solve self phase participating A D rhs pi cs))
    = nIters s /\
  m_nFail (out_self (solve self phase participating A D rhs pi cs))
    = (if converged s then m_nFail self else incr (m_nFail self) phase).
Proof.
  intros Hne s. unfold solve.
  rewrite decide_False by (apply participating_count_nonzero, Hne).
  repeat split.
Qed.

End SolveOutcome.

(** C10.  With an empty participating set [solve] returns [true] at once:
    no pass through the loop body is made, [pi] and the constraint records
    are as they were, and of the per-phase counters only the solve count
    moves; the iteration and failure counters keep their values. *)
Theorem solve_empty_participating
    (self : PGSImpulseSolver Real) (phase : nat) (A : Matrix Real)
    (D rhs pi : Vector Real) (cs : Constraints Real) :
  let out := solve self phase [] A D rhs pi cs in
  result out = true /\
  out_pi out = pi /\
  out_cons out = cs /\
  m_nIters (out_self out) = m_nIters self /\
  m_nFail (out_self out) = m_nFail self /\
  m_nSolves (out_self out) = incr (m_nSolves self) phase.
Proof. cbv zeta. unfold solve. cbn. repeat split. Qed.

(** C6.  Two calls of [solve] that differ only in the diagonal vector [D]
    have the same outcome: the same returned [bool], the same final [pi],
    the same constraint records with their status fields, and the same
    counters.  [solve] never reads [D]. *)
Theorem solve_independent_of_D
    (self : PGSImpulseSolver Real) (phase : nat)
    (participating : list MultiplierIndex) (A : Matrix Real)
    (D1 D2 rhs pi : Vector Real) (cs : Constraints Real) :
  solve self phase participating A D1 rhs pi cs
  = solve self phase participating A D2 rhs pi cs.
Proof. reflexivity. Qed.

(** C2.  The iterates of a call with a non-empty participating set start
    at the [pi] and the records the call is given, and each is the
    multiplier vector and the records that one sweep leaves when run on the
    iterate before with the relaxation factor then in force; the enforced
    RMS residual of that sweep is [sqrt(sum2enf/p)].  [solve] returns
    [true] exactly when, at the end of some sweep [k] within the iteration
    cap, that residual is strictly below the convergence tolerance.  It
    then stops at the first such sweep: [pi], the records and the iteration
    counter are those reached after [k] sweeps and the failure counter is
    untouched.  Otherwise it returns [false] after all [m_maxIters] sweeps,
    keeps the last iterate in [pi] and increments the failure counter of
    the phase by one.  So the failure counter is incremented exactly when
    the result is [false]. *)
Theorem solve_converges_iff_below_tolerance
    (self : PGSImpulseSolver Real) (phase : nat)
    (participating : list MultiplierIndex) (A : Matrix Real)
    (D rhs pi : Vector Real) (cs : Constraints Real) :
  participating <> [] ->
  let n := Z.to_nat (m_maxIters self) in
  let run k := unbroken self phase participating A rhs k (initial self pi cs) in
  let swept k :=
    sweep participating A rhs (cur_sor (run k)) (cur_cons (run k))
      (cur_pi (run k)) in
  let below k :=
    rmsEnforced participating A rhs (run (k - 1)%nat) <? m_convergenceTol self in
  let out := solve self phase participating A D rhs pi cs in
  (cur_pi (run 0%nat) = pi /\ cur_cons (run 0%nat) = cs) /\
  (forall k, cur_pi (run (S k)) = sw_pi (snd (swept k)) /\
             cur_cons (run (S k)) = fst (swept k)) /\
  (forall k, rmsEnforced participating A rhs (run k)
             = real_sqrt (sum2enf (snd (swept k))
                          / real_of_int (Z.of_nat (length participating)))) /\
  (result out = true <-> exists k, 1 <= k <= n /\ below k = true) /\
  (result out = true ->
     exists k, 1 <= k <= n /\ below k = true /\
       (forall j, 1 <= j < k -> below j = false) /\
       out_pi out = cur_pi (run k) /\
       out_cons out = cur_cons (run k) /\
       m_nIters (out_self out) phase = (m_nIters self phase + Z.of_nat k)%Z /\
       m_nFail (out_self out) = m_nFail self) /\
  (result out = false ->
     out_pi out = cur_pi (run n) /\
     out_cons out = cur_cons (run n) /\
     m_nIters (out_self out) phase = (m_nIters self phase + Z.of_nat n)%Z /\
     m_nFail (out_self out) phase = (m_nFail self phase + 1)%Z /\
     (forall q, q <> phase -> m_nFail (out_self out) q = m_nFail self q)) /\
  (m_nFail (out_self out) phase = (m_nFail self phase + 1)%Z
   <-> result out = false).
Proof.
  intros Hne n run swept below out.
  split; [split; reflexivity|].
  split.
  { intros k. unfold run, swept. rewrite unbroken_S. cbn [next cur_pi cur_cons].
    apply iteration_sweep. }
  split; [intros k; reflexivity|].
  destruct (solve_nonempty self phase participating A D rhs pi cs Hne)
    as (Hres & Hpi & Hcs & Hit & Hfail).
  fold out in Hres, Hpi, Hcs, Hit, Hfail. fold n in Hres, Hpi, Hcs, Hit, Hfail.
  assert (Hbelow : forall k, 1 <= k -> below k = converged (run k)).
  { intros [|k] Hk; [lia|]. unfold below, run.
    replace (S k - 1)%nat with k by lia.
    symmetry. apply unbroken_converged. }
  destruct (iterate_cases self phase participating A rhs n
              (initial self pi cs) eq_refl)
    as [(Hconv & k & Hk & Hck & Hbefore & Hst) | (Hconv & Hnone & Hst)].
  - (* left by break at sweep k *)
    rewrite Hconv in Hres, Hfail.
    assert (Hwit : exists k, 1 <= k <= n /\ below k = true /\
       (forall j, 1 <= j < k -> below j = false) /\
       out_pi out = cur_pi (run k) /\
       out_cons out = cur_cons (run k) /\
       m_nIters (out_self out) phase = (m_nIters self phase + Z.of_nat k)%Z /\
       m_nFail (out_self out) = m_nFail self).
    { exists k. split; [exact Hk|].
      split; [rewrite Hbelow by lia; exact Hck|].
      split; [intros j Hj; rewrite Hbelow by lia; apply Hbefore; exact Hj|].
      unfold run. rewrite <- Hst.
      split; [exact Hpi|]. split; [exact Hcs|]. split; [|exact Hfail].
      rewrite Hit.
      change (nIters (iterate self phase participating A rhs n
                        (initial self pi cs)))
        with (nIters (next (iterate self phase participating A rhs n
                              (initial self pi cs)))).
      rewrite Hst. apply (unbroken_nIters self phase participating A rhs). }
    split; [|split; [|split]].
    + split; [intros _|intros _; exact Hres].
      destruct Hwit as (k' & Hk' & Hb' & _). exists k'. split; assumption.
    + intros _. exact Hwit.
    + intros Hf. congruence.
    + rewrite Hres, Hfail. split; [lia | discriminate].
  - (* all n sweeps made *)
    rewrite Hconv in Hres, Hfail.
    split; [|split; [|split]].
    + split; [congruence|].
      intros (k & Hk & Hb). rewrite Hbelow in Hb by lia.
      unfold run in Hb. rewrite (Hnone k Hk) in Hb. discriminate.
    + intros Ht. congruence.
    + intros _. unfold run. rewrite <- Hst.
      split; [exact Hpi|]. split; [exact Hcs|].
      split; [rewrite Hit, Hst;
              apply (unbroken_nIters self phase participating A rhs)|].
      rewrite Hfail. unfold incr. split.
      * rewrite decide_True by reflexivity. reflexivity.
      * intros q Hq. rewrite decide_False by assumption. reflexivity.
    + rewrite Hres, Hfail. unfold incr.
      rewrite decide_True by reflexivity. split; reflexivity.
Qed.

(** *** Unilateral speed constraints *)

Lemma sweep_onlyUniSpeed
    (participating : list MultiplierIndex) (A : Matrix Real)
    (rhs : Vector Real) (sor : Real) (cs : Constraints Real)
    (pi : Vector Real) :
  onlyUniSpeed cs ->
  sweep participating A rhs sor cs pi
  = (cs, {| sw_pi := pi; sum2all := real_zero; sum2enf := real_zero |}).
Proof.
  destruct cs as [u c sp b cl sl]. unfold onlyUniSpeed. cbn.
  intros (-> & -> & -> & -> & ->). reflexivity.
Qed.

Lemma iteration_onlyUniSpeed
    (self : PGSImpulseSolver Real) (phase : nat)
    (participating : list MultiplierIndex) (A : Matrix Real)
    (rhs : Vector Real) (s : LoopState Real) :
  onlyUniSpeed (cur_cons s) ->
  cur_pi (iteration self phase participating A rhs s) = cur_pi s /\
  cur_cons (iteration self phase participating A rhs s) = cur_cons s /\
  converged (iteration self phase participating A rhs s)
  = (real_sqrt (real_zero / real_of_int (participating_count participating))
     <? m_convergenceTol self).
Proof.
  intros Hcs. unfold iteration.
  rewrite (sweep_onlyUniSpeed _ _ _ _ _ _ Hcs). repeat split.
Qed.

Lemma iterate_onlyUniSpeed
    (self : PGSImpulseSolver Real) (phase : nat)
    (participating : list MultiplierIndex) (A : Matrix Real)
    (rhs : Vector Real) (n : nat) (s : LoopState Real) :
  onlyUniSpeed (cur_cons s) ->
  cur_pi (iterate self phase participating A rhs n s) = cur_pi s /\
  cur_cons (iterate self phase participating A rhs n s) = cur_cons s.
Proof.
  revert s. induction n as [|n IH]; intros s Hcs; [split; reflexivity|].
  destruct (iteration_onlyUniSpeed self phase participating A rhs s Hcs)
    as (Hpi & Hc & _).
  cbn [iterate].
  destruct (converged (iteration self phase participating A rhs s)).
  - split; assumption.
  - destruct (IH (next (iteration self phase participating A rhs s)))
      as (Hpi' & Hc'); [cbn [next cur_cons]; rewrite Hc; exact Hcs|].
    rewrite Hpi', Hc'. cbn [next cur_pi cur_cons]. split; assumption.
Qed.

(** C3, what the code does.  No loop of [solve] runs over [uniSpeed]: a
    system whose only constraints are unilateral speed constraints comes
    back with [pi] and every record as they went in, whatever the rows of
    those multipliers say; and when [sqrt(0/p)] is below the tolerance the
    first sweep already reports convergence. *)
Theorem solve_never_updates_uniSpeed
    (self : PGSImpulseSolver Real) (phase : nat)
    (participating : list MultiplierIndex) (A : Matrix Real)
    (D rhs pi : Vector Real) (cs : Constraints Real) :
  onlyUniSpeed cs ->
  participating <> [] ->
  (1 <= m_maxIters self)%Z ->
  let out := solve self phase participating A D rhs pi cs in
  out_pi out = pi /\
  out_cons out = cs /\
  ((real_sqrt (real_zero / real_of_int (participating_count participating))
    <? m_convergenceTol self) = true ->
   result out = true /\
   m_nIters (out_self out) phase = (m_nIters self phase + 1)%Z).
Proof.
  intros Hcs Hne Hmax out.
  destruct (solve_nonempty self phase participating A D rhs pi cs Hne)
    as (Hres & Hpi & Hc & Hit & _).
  fold out in Hres, Hpi, Hc, Hit.
  destruct (iterate_onlyUniSpeed self phase participating A rhs
              (Z.to_nat (m_maxIters self)) (initial self pi cs) Hcs)
    as (Hpi' & Hc').
  split; [rewrite Hpi, Hpi'; reflexivity|].
  split; [rewrite Hc, Hc'; reflexivity|].
  intros Htol. rewrite Hres, Hit.
  destruct (Z.to_nat (m_maxIters self)) as [|n] eqn:Hn; [lia|].
  cbn [iterate].
  destruct (iteration_onlyUniSpeed self phase participating A rhs
              (initial self pi cs) Hcs) as (_ & _ & Hconv).
  rewrite Htol in Hconv. rewrite Hconv.
  split; [exact Hconv|].
  rewrite iteration_nIters. cbn [initial nIters]. unfold incr.
  rewrite decide_True by reflexivity. reflexivity.
Qed.

(** *** The loops over the records *)

(** A loop over two arrays joined is the loop over the first followed by
    the loop over the second. *)
Lemma forEach_app {RT : Type} (body : RT -> Sweep Real -> RT * Sweep Real)
    (l1 l2 : list RT) (s : Sweep Real) :
  forEach body (l1 ++ l2) s
  = (fst (forEach body l1 s) ++ fst (forEach body l2 (snd (forEach body l1 s))),
     snd (forEach body l2 (snd (forEach body l1 s)))).
Proof.
  revert s. induction l1 as [|rt l1 IH]; intros s; cbn [forEach app].
  - cbn [fst snd]. destruct (forEach body l2 s). reflexivity.
  - destruct (body rt s) as [rt' s1]. rewrite IH.
    destruct (forEach body l1 s1) as [l1' s2]. reflexivity.
Qed.

Lemma forEach_length {RT : Type} (body : RT -> Sweep Real -> RT * Sweep Real)
    (l : list RT) (s : Sweep Real) :
  length (fst (forEach body l s)) = length l.
Proof.
  revert s. induction l as [|rt l IH]; intros s; cbn [forEach]; [reflexivity|].
  destruct (body rt s) as [rt' s1]. specialize (IH s1).
  destruct (forEach body l s1). cbn in *. lia.
Qed.

(** An invariant of the loop body is an invariant of the loop. *)
Lemma forEach_invariant {RT : Type} (body : RT -> Sweep Real -> RT * Sweep Real)
    (P : Sweep Real -> Prop) :
  (forall rt s, P s -> P (snd (body rt s))) ->
  forall l s, P s -> P (snd (forEach body l s)).
Proof.
  intros Hbody l. induction l as [|rt l IH]; intros s Hs; cbn [forEach].
  - exact Hs.
  - specialize (Hbody rt s Hs). destruct (body rt s) as [rt' s1].
    specialize (IH s1 Hbody). destruct (forEach body l s1). exact IH.
Qed.

(** The sums a sweep leaves are those of its six loops run in the order of
    the source, each started on what the one before left. *)
Lemma sweep_snd
    (participating : list MultiplierIndex) (A : Matrix Real)
    (rhs : Vector Real) (sor : Real) (cs : Constraints Real)
    (pi : Vector Real) :
  let s0 := {| sw_pi := pi; sum2all := real_zero; sum2enf := real_zero |} in
  let r1 := forEach (uncondBody participating A rhs sor) (unconditional cs) s0 in
  let r2 := forEach (normalBody participating A rhs sor) (uniContact cs) (snd r1) in
  let r3 := forEach (frictionBody participating A rhs sor) (fst r2) (snd r2) in
  let r4 := forEach (boundedBody participating A rhs sor) (bounded cs) (snd r3) in
  let r5 := forEach (stateLtdBody participating A rhs sor)
              (stateLtdFriction cs) (snd r4) in
  let r6 := forEach (consLtdBody participating A rhs sor)
              (consLtdFriction cs) (snd r5) in
  sweep participating A rhs sor cs pi
  = ({| unconditional := fst r1; uniContact := fst r3;
        uniSpeed := uniSpeed cs; bounded := fst r4;
        consLtdFriction := fst r6; stateLtdFriction := fst r5 |}, snd r6).
Proof.
  cbv zeta. unfold sweep.
  repeat match goal with
         | |- context [forEach ?b ?l ?s] =>
             destruct (forEach b l s) as [? ?]; cbn [fst snd]
         end.
  reflexivity.
Qed.

End ControlFlow.

(** ** The relaxation factor, for any arithmetic *)

Section Relaxation.
Context {Real : Type} {ops : RealOps Real}.
Local Open Scope real_ops_scope.





Section Call.
Variable self : PGSImpulseSolver Real.
Variable phase : nat.
Variable participating : list MultiplierIndex.
Variable A : Matrix Real.
Variable rhs pi : Vector Real.
Variable cs : Constraints Real.

(** The state after [k] iterations of the call. *)
Local Abbreviation run k :=
  (unbroken self phase participating A rhs k (initial self pi cs)).






End Call.

End Relaxation.

(** ** Vectors *)

Section VectorFacts.
Context {Real : Type} {ops : RealOps Real}.

Lemma elt_insert_eq (v : Vector Real) (i : nat) (x : Real) :
  i < length v -> elt (<[i := x]> v) i = x.
Proof.
  intros Hi. unfold elt. rewrite list_lookup_insert_eq by exact Hi.
  reflexivity.
Qed.

Lemma elt_insert_ne (v : Vector Real) (i j : nat) (x : Real) :
  i <> j -> elt (<[i := x]> v) j = elt v j.
Proof.
  intros Hij. unfold elt. rewrite list_lookup_insert_ne by exact Hij.
  reflexivity.
Qed.

Lemma elt_insert_same (v : Vector Real) (i j : nat) :
  elt (<[i := elt v i]> v) j = elt v j.
Proof.
  destruct (decide (i = j)) as [<-|Hij]; [|apply elt_insert_ne, Hij].
  destruct (decide (i < length v)) as [Hi|Hi].
  - apply elt_insert_eq, Hi.
  - rewrite list_insert_ge by lia. reflexivity.
Qed.

Lemma scaleBy_cons (c : Real) (i : MultiplierIndex)
    (I : list MultiplierIndex) (pi : Vector Real) :
  scaleBy c (i :: I) pi = scaleBy c I (<[i := real_mul (elt pi i) c]> pi).
Proof. reflexivity. Qed.

Lemma scaleBy_length (c : Real) (I : list MultiplierIndex) (pi : Vector Real) :
  length (scaleBy c I pi) = length pi.
Proof.
  revert pi. induction I as [|i I IH]; intros pi; [reflexivity|].
  rewrite scaleBy_cons, IH. apply length_insert.
Qed.

(** Scaling over an index set without repetitions multiplies each of its
    entries once and touches no other entry. *)
Lemma scaleBy_elt (c : Real) (I : list MultiplierIndex) (pi : Vector Real)
    (j : nat) :
  NoDup I ->
  (forall i, i ∈ I -> i < length pi) ->
  elt (scaleBy c I pi) j
  = if decide (j ∈ I) then real_mul (elt pi j) c else elt pi j.
Proof.
  revert pi. induction I as [|i I IH]; intros pi Hnd Hrange.
  - rewrite decide_False by apply not_elem_of_nil. reflexivity.
  - apply NoDup_cons in Hnd as [Hi Hnd].
    rewrite scaleBy_cons, IH; [|exact Hnd|].
    + destruct (decide (j = i)) as [->|Hji].
      * rewrite decide_False by exact Hi.
        rewrite decide_True by apply list_elem_of_here.
        apply elt_insert_eq, Hrange, list_elem_of_here.
      * rewrite elt_insert_ne by congruence.
        destruct (decide (j ∈ I)) as [Hj|Hj].
        -- rewrite decide_True by (apply list_elem_of_further, Hj).
           reflexivity.
        -- rewrite decide_False; [reflexivity|].
           intros [?|?]%elem_of_cons; [apply Hji|apply Hj]; assumption.
    + intros k Hk. rewrite length_insert.
      apply Hrange, list_elem_of_further, Hk.
Qed.

Lemma scaleBy_outside (c : Real) (I : list MultiplierIndex) (pi : Vector Real)
    (j : nat) :
  j ∉ I -> elt (scaleBy c I pi) j = elt pi j.
Proof.
  revert pi. induction I as [|i I IH]; intros pi Hj; [reflexivity|].
  rewrite scaleBy_cons, IH.
  - apply elt_insert_ne. intros ->. apply Hj, list_elem_of_here.
  - intros Hin. apply Hj, list_elem_of_further, Hin.
Qed.

(** *** The batch row sums *)

Lemma lookup_elt (v : list Real) (k : nat) :
  k < length v -> v !! k = Some (elt v k).
Proof.
  intros Hk. unfold elt, Vector.
  destruct (v !! k) as [x|] eqn:E; [reflexivity|].
  apply lookup_ge_None_1 in E. lia.
Qed.

(** The inner loop [for (i...) sums[i] = g(i, sums[i])] over the positions
    [a .. a+n-1]. *)
Lemma rowLoop_lookup (g : nat -> Real -> Real) (n a : nat)
    (sums : list Real) (k : nat) :
  a + n <= length sums ->
  fold_left (fun sums i => <[i := g i (elt sums i)]> sums) (seq a n) sums !! k
  = if decide (a <= k < a + n) then Some (g k (elt sums k)) else sums !! k.
Proof.
  revert a sums. induction n as [|n IH]; intros a sums Hlen.
  - cbn [seq fold_left]. rewrite decide_False by lia. reflexivity.
  - cbn [seq fold_left]. rewrite IH by (rewrite length_insert; lia).
    destruct (decide (S a <= k < S a + n)) as [Hk|Hk].
    + rewrite decide_True by lia. rewrite elt_insert_ne by lia. reflexivity.
    + destruct (decide (k = a)) as [->|Hka].
      * rewrite decide_True by lia.
        rewrite list_lookup_insert_eq by lia. reflexivity.
      * rewrite decide_False by lia.
        rewrite list_lookup_insert_ne by congruence. reflexivity.
Qed.

Lemma rowLoop_length (g : nat -> Real -> Real) (l : list nat)
    (sums : list Real) :
  length (fold_left (fun sums i => <[i := g i (elt sums i)]> sums) l sums)
  = length sums.
Proof.
  revert sums. induction l as [|i l IH]; intros sums; [reflexivity|].
  cbn [fold_left]. rewrite IH. apply length_insert.
Qed.

(** After the loop over the columns, entry [k] of [sums] has accumulated
    the products of row [rows[k]], in the order of the columns. *)
Lemma columnLoop_elt (rows : list MultiplierIndex) (A : Matrix Real)
    (pi : Vector Real) (columns : list MultiplierIndex) (sums : list Real) :
  length sums = length rows ->
  length (fold_left
            (fun sums cx =>
               fold_left
                 (fun sums i =>
                    <[i := real_add (elt sums i)
                             (real_mul (entry A (ix rows i) cx) (elt pi cx))]>
                      sums)
                 (seq 0 (length rows)) sums)
            columns sums) = length rows /\
  forall k, k < length rows ->
    elt (fold_left
           (fun sums cx =>
              fold_left
                (fun sums i =>
                   <[i := real_add (elt sums i)
                            (real_mul (entry A (ix rows i) cx) (elt pi cx))]>
                     sums)
                (seq 0 (length rows)) sums)
           columns sums) k
    = fold_left
        (fun rowSum cx =>
           real_add rowSum (real_mul (entry A (ix rows k) cx) (elt pi cx)))
        columns (elt sums k).
Proof.
  revert sums. induction columns as [|cx columns IH]; intros sums Hlen.
  - split; [exact Hlen | reflexivity].
  - cbn [fold_left].
    pose (g := fun (i : nat) (x : Real) =>
                 real_add x (real_mul (entry A (ix rows i) cx) (elt pi cx))).
    change (fun sums0 i =>
              <[i := real_add (elt sums0 i)
                       (real_mul (entry A (ix rows i) cx) (elt pi cx))]> sums0)
      with (fun sums0 i => <[i := g i (elt sums0 i)]> sums0).
    destruct (IH (fold_left (fun sums0 i => <[i := g i (elt sums0 i)]> sums0)
                    (seq 0 (length rows)) sums)) as [Hl He].
    { rewrite rowLoop_length. exact Hlen. }
    split; [exact Hl|].
    intros k Hk. rewrite (He k Hk). f_equal.
    unfold elt at 1. rewrite rowLoop_lookup by lia.
    rewrite decide_True by lia. reflexivity.
Qed.

(** [doRowSums] computes for each row what [doRowSum] computes for it;
    the additions are made in the same order, so this holds in floating
    point as well. *)
Lemma doRowSums_rowwise (columns rows : list MultiplierIndex)
    (A : Matrix Real) (pi : Vector Real) :
  doRowSums columns rows A pi
  = map (fun row => doRowSum columns row A pi) rows.
Proof.
  unfold doRowSums.
  destruct (columnLoop_elt rows A pi columns
              (replicate (length rows) real_zero)) as [Hl He].
  { apply length_replicate. }
  unfold MultiplierIndex in *.
  apply list_eq. intros k. rewrite list_lookup_fmap.
  destruct (decide (k < length rows)) as [Hk|Hk].
  - rewrite lookup_elt by lia. rewrite (He k Hk).
    destruct (lookup_lt_is_Some_2 rows k Hk) as [row Hrow].
    rewrite Hrow. cbn [fmap option_fmap option_map]. f_equal.
    unfold doRowSum, ix, MultiplierIndex. rewrite Hrow.
    cbn [default from_option id].
    f_equal. unfold elt. rewrite lookup_replicate_2 by exact Hk.
    reflexivity.
  - rewrite !lookup_ge_None_2 by lia. reflexivity.
Qed.

(** The two branches of [doUpdate], in any arithmetic. *)
Lemma doUpdate_cases (row : MultiplierIndex) (A : Matrix Real)
    (rhs : Vector Real) (SOR rowSum : Real) (pi : Vector Real) :
  fst (doUpdate row A rhs SOR rowSum pi)
  = square (real_sub (elt rhs row) rowSum) /\
  (real_ltb real_zero (entry A row row) = true ->
   snd (doUpdate row A rhs SOR rowSum pi)
   = <[row := real_add (elt pi row)
                (real_div (real_mul SOR (real_sub (elt rhs row) rowSum))
                          (entry A row row))]> pi) /\
  (real_ltb real_zero (entry A row row) = false ->
   snd (doUpdate row A rhs SOR rowSum pi) = pi).
Proof.
  unfold doUpdate. cbn [fst snd].
  split; [reflexivity|]. split; intros ->; reflexivity.
Qed.

(** [doUpdates] applies the update of [doUpdate] to its rows in turn, each
    with the row sum computed for it beforehand. *)
Lemma doUpdates_rowwise (rows : list MultiplierIndex) (A : Matrix Real)
    (rhs : Vector Real) (SOR : Real) (rowSums : list Real) (pi : Vector Real) :
  doUpdates rows A rhs SOR rowSums pi
  = fold_left
      (fun acc i =>
         (real_add (fst acc)
            (fst (doUpdate (ix rows i) A rhs SOR (elt rowSums i) (snd acc))),
          snd (doUpdate (ix rows i) A rhs SOR (elt rowSums i) (snd acc))))
      (seq 0 (length rows)) (real_zero, pi).
Proof.
  unfold doUpdates. generalize (seq 0 (length rows)) as l.
  generalize (real_zero, pi) as acc.
  intros acc l. revert acc.
  induction l as [|i l IH]; intros [er2 p]; [reflexivity|].
  cbn [fold_left]. rewrite IH. reflexivity.
Qed.

End VectorFacts.

(** ** The projections, for any arithmetic *)

Section Projections.
Context {Real : Type} {ops : RealOps Real}.
Local Open Scope real_ops_scope.

(** A sum of squares reads [pi] at its index set only. *)
Lemma norm2_agree (I : list MultiplierIndex) (p q : Vector Real) :
  (forall i, i ∈ I -> elt p i = elt q i) -> norm2 I p = norm2 I q.
Proof.
  unfold norm2. generalize (real_zero (Real := Real)).
  induction I as [|i I IH]; intros a H; [reflexivity|].
  cbn [fold_left]. rewrite (H i) by apply list_elem_of_here.
  apply IH. intros k Hk. apply H, list_elem_of_further, Hk.
Qed.

(** C4, as the code has it, in any arithmetic.  For an index set [IV] of
    distinct positions of [pi], [boundVector] compares the sum of the
    squares of [pi] over [IV] with the square of the cap, both as the
    arithmetic computes them.  When the sum is at most the squared cap it
    leaves [pi] as it is and reports [Rolling]; otherwise it reports
    [Sliding] and multiplies every [IV] entry by the one factor
    [sqrt(maxLen^2 / sum)], again as computed.  No entry outside [IV]
    changes and [pi] keeps its length. *)
Theorem boundVector_by_computed_norm
    (maxLen : Real) (IV : list MultiplierIndex) (pi : Vector Real) :
  NoDup IV ->
  (forall i, i ∈ IV -> i < length pi) ->
  let maxLen2 := square maxLen in
  let piNorm2 := norm2 IV pi in
  let out := boundVector maxLen IV pi in
  ((piNorm2 <=? maxLen2) = true -> out = (Rolling, pi)) /\
  ((piNorm2 <=? maxLen2) = false ->
     fst out = Sliding /\
     forall i, i ∈ IV ->
       elt (snd out) i = elt pi i * real_sqrt (maxLen2 / piNorm2)) /\
  (forall j, j ∉ IV -> elt (snd out) j = elt pi j) /\
  length (snd out) = length pi.
Proof.
  intros Hnd Hrange maxLen2 piNorm2 out.
  subst out maxLen2 piNorm2. unfold boundVector.
  destruct (norm2 IV pi <=? square maxLen) eqn:E; cbn [fst snd].
  - split; [reflexivity|]. split; [discriminate|]. split; reflexivity.
  - split; [discriminate|]. split; [|split].
    + intros _. split; [reflexivity|].
      intros i Hi. rewrite scaleBy_elt by assumption.
      rewrite decide_True by exact Hi. reflexivity.
    + intros j Hj. apply scaleBy_outside, Hj.
    + apply scaleBy_length.
Qed.

(** The friction-cone cap in any arithmetic: for friction indices [IF]
    that are distinct positions of [pi] and normal indices [IN] disjoint
    from them, [boundFriction] compares the sum of squares over [IF] with
    [mu*mu] times the sum of squares over [IN], as computed.  When it is at
    most that, [pi] is left as it is and [Rolling] is reported; otherwise
    [Sliding] is reported and every [IF] entry is multiplied by the one
    factor [sqrt(mu*mu*N2 / F2)].  No entry outside [IF] changes, so the
    normals and their sum of squares are as before. *)
Theorem boundFriction_by_computed_norms
    (mu : Real) (IN IF : list MultiplierIndex) (pi : Vector Real) :
  NoDup IF ->
  (forall i, i ∈ IF -> i < length pi) ->
  (forall i, i ∈ IN -> i ∉ IF) ->
  let N2 := norm2 IN pi in
  let F2 := norm2 IF pi in
  let mu2N2 := mu * mu * N2 in
  let out := boundFriction mu IN IF pi in
  ((F2 <=? mu2N2) = true -> out = (Rolling, pi)) /\
  ((F2 <=? mu2N2) = false ->
     fst out = Sliding /\
     forall i, i ∈ IF ->
       elt (snd out) i = elt pi i * real_sqrt (mu2N2 / F2)) /\
  (forall j, j ∉ IF -> elt (snd out) j = elt pi j) /\
  norm2 IN (snd out) = N2 /\
  length (snd out) = length pi.
Proof.
  intros Hnd Hrange Hdisj N2 F2 mu2N2 out.
  subst out mu2N2 F2 N2. unfold boundFriction.
  destruct (norm2 IF pi <=? mu * mu * norm2 IN pi) eqn:E; cbn [fst snd].
  - split; [reflexivity|]. split; [discriminate|]. repeat split.
  - split; [discriminate|]. split; [|split; [|split]].
    + intros _. split; [reflexivity|].
      intros i Hi. rewrite scaleBy_elt by assumption.
      rewrite decide_True by exact Hi. reflexivity.
    + intros j Hj. apply scaleBy_outside, Hj.
    + apply norm2_agree. intros i Hi. apply scaleBy_outside, Hdisj, Hi.
    + apply scaleBy_length.
Qed.

(** C5, as the code has it, in any arithmetic.  Applied to its own output,
    the sign bound (whose comparison [0 < sign*0] fails) and the two-sided
    bound (whose comparisons [ub < ub], [lb < lb] and [ub < lb] fail)
    leave the multiplier as it is and report the status of an unclamped
    constraint, [UniActive] and [Engaged]: their second result is the first
    one exactly when the first application did not clamp.  The two vector
    caps repeat their comparison on the sums of squares of their output:
    the second application leaves the output as it is and reports
    [Rolling] exactly when that comparison succeeds, as it does when the
    first application reported [Rolling]; otherwise it reports [Sliding]
    and scales once more. *)
Theorem projections_applied_twice
    (sign lb ub x maxLen mu : Real) (IV IN IF : list MultiplierIndex)
    (pi : Vector Real) :
  (real_zero <? sign * real_zero) = false ->
  (ub <? ub) = false -> (lb <? lb) = false -> (ub <? lb) = false ->
  (boundUnilateral sign (snd (boundUnilateral sign x))
   = (UniActive, snd (boundUnilateral sign x)) /\
   boundScalar lb (snd (boundScalar lb x ub)) ub
   = (Engaged, snd (boundScalar lb x ub))) /\
  ((boundUnilateral_twice_as_once sign x
    <-> fst (boundUnilateral sign x) = UniActive) /\
   (boundScalar_twice_as_once lb x ub
    <-> fst (boundScalar lb x ub) = Engaged)) /\
  (let q := snd (boundVector maxLen IV pi) in
   (fst (boundVector maxLen IV pi) = Rolling ->
    boundVector_twice_as_once maxLen IV pi /\
    boundVector maxLen IV q = (Rolling, q)) /\
   (boundVector maxLen IV q = (Rolling, q)
    <-> (norm2 IV q <=? square maxLen) = true) /\
   ((norm2 IV q <=? square maxLen) = false ->
    boundVector maxLen IV q
    = (Sliding, scaleBy (real_sqrt (square maxLen / norm2 IV q)) IV q))) /\
  (let q := snd (boundFriction mu IN IF pi) in
   (fst (boundFriction mu IN IF pi) = Rolling ->
    boundFriction_twice_as_once mu IN IF pi /\
    boundFriction mu IN IF q = (Rolling, q)) /\
   (boundFriction mu IN IF q = (Rolling, q)
    <-> (norm2 IF q <=? mu * mu * norm2 IN q) = true) /\
   ((norm2 IF q <=? mu * mu * norm2 IN q) = false ->
    boundFriction mu IN IF q
    = (Sliding,
       scaleBy (real_sqrt (mu * mu * norm2 IN q / norm2 IF q)) IF q))).
Proof.
  intros Hsign Hub Hlb Hbounds.
  assert (H1 : boundUnilateral sign (snd (boundUnilateral sign x))
               = (UniActive, snd (boundUnilateral sign x))).
  { unfold boundUnilateral.
    destruct (real_zero <? sign * x) eqn:E; cbn [snd].
    - rewrite Hsign. reflexivity.
    - rewrite E. reflexivity. }
  assert (H2 : boundScalar lb (snd (boundScalar lb x ub)) ub
               = (Engaged, snd (boundScalar lb x ub))).
  { unfold boundScalar.
    destruct (ub <? x) eqn:E1; cbn [snd].
    - rewrite Hub, Hbounds. reflexivity.
    - destruct (x <? lb) eqn:E2; cbn [snd].
      + rewrite Hbounds, Hlb. reflexivity.
      + rewrite E1, E2. reflexivity. }
  split; [split; assumption|]. split; [|split].
  - unfold boundUnilateral_twice_as_once, boundScalar_twice_as_once.
    rewrite H1, H2.
    destruct (boundUnilateral sign x) as [c1 p1],
      (boundScalar lb x ub) as [c2 p2].
    cbn [fst snd].
    repeat split; intros H; solve [injection H; auto | rewrite H; reflexivity].
  - cbv zeta. unfold boundVector_twice_as_once. split; [|split].
    + unfold boundVector.
      destruct (norm2 IV pi <=? square maxLen) eqn:E; cbn [fst snd];
        [|discriminate].
      intros _. rewrite E. split; reflexivity.
    + generalize (snd (boundVector maxLen IV pi)). intros q.
      unfold boundVector.
      destruct (norm2 IV q <=? square maxLen);
        split; (reflexivity || discriminate).
    + generalize (snd (boundVector maxLen IV pi)). intros q E.
      unfold boundVector. rewrite E. reflexivity.
  - cbv zeta. unfold boundFriction_twice_as_once. split; [|split].
    + unfold boundFriction.
      destruct (norm2 IF pi <=? mu * mu * norm2 IN pi) eqn:E; cbn [fst snd];
        [|discriminate].
      intros _. rewrite E. split; reflexivity.
    + generalize (snd (boundFriction mu IN IF pi)). intros q.
      unfold boundFriction.
      destruct (norm2 IF q <=? mu * mu * norm2 IN q);
        split; (reflexivity || discriminate).
    + generalize (snd (boundFriction mu IN IF pi)). intros q E.
      unfold boundFriction. rewrite E. reflexivity.
Qed.

End Projections.

(** ** Exact arithmetic *)

(** Unfolds the arithmetic of the [ideal] instance. *)
Ltac ideal_ops :=
  cbn [real_zero real_one real_tenth real_eight_tenths real_of_int real_add
       real_sub real_mul real_div real_sqrt real_abs real_ltb real_leb ideal]
    in *.

Section Ideal.
Local Open Scope R_scope.

Lemma Rltb_true (x y : R) : Rltb x y = true <-> x < y.
Proof. unfold Rltb. destruct (Rlt_dec x y); split; (congruence || tauto). Qed.

Lemma Rltb_false (x y : R) : Rltb x y = false <-> y <= x.
Proof.
  unfold Rltb. destruct (Rlt_dec x y); split; try congruence; try lra.
Qed.

Lemma Rleb_true (x y : R) : Rleb x y = true <-> x <= y.
Proof. unfold Rleb. destruct (Rle_dec x y); split; (congruence || tauto). Qed.

Lemma Rleb_false (x y : R) : Rleb x y = false <-> y < x.
Proof.
  unfold Rleb. destruct (Rle_dec x y); split; try congruence; try lra.
Qed.

(** C1.  In exact arithmetic, for a row [r] of the multiplier vector:
    [doUpdate] sets [pi[r]] to [pi[r] + sor*(rhs[r] - s)/A[r,r]] when
    [A[r,r] > 0] and leaves [pi] as it is when [A[r,r] <= 0]; either way it
    returns the squared residual [(rhs[r] - s)^2], and no entry of [pi]
    other than [pi[r]] changes. *)
Theorem doUpdate_spec (r : MultiplierIndex) (A : Matrix R) (rhs : Vector R)
    (sor s : R) (pi : Vector R) :
  (r < length pi)%nat ->
  let out := doUpdate r A rhs sor s pi in
  (0 < entry A r r ->
   elt (snd out) r = elt pi r + sor * (elt rhs r - s) / entry A r r) /\
  (entry A r r <= 0 -> snd out = pi) /\
  fst out = (elt rhs r - s) * (elt rhs r - s) /\
  (forall j, j <> r -> elt (snd out) j = elt pi j) /\
  length (snd out) = length pi.
Proof.
  intros Hr out. subst out. unfold doUpdate, square. cbn [fst snd].
  split; [|split; [|split; [|split]]].
  - intros Hpos. apply Rltb_true in Hpos.
    change (real_zero <? entry A r r)%re with (Rltb 0 (entry A r r)).
    rewrite Hpos. apply elt_insert_eq, Hr.
  - intros Hneg. apply Rltb_false in Hneg.
    change (real_zero <? entry A r r)%re with (Rltb 0 (entry A r r)).
    rewrite Hneg. reflexivity.
  - reflexivity.
  - intros j Hj. destruct (real_zero <? entry A r r)%re; [|reflexivity].
    apply elt_insert_ne. congruence.
  - destruct (real_zero <? entry A r r)%re; [|reflexivity].
    apply length_insert.
Qed.

(** *** Sums of squares over an index set *)

Lemma norm2_shift (I : list MultiplierIndex) (pi : Vector R) (a : R) :
  fold_left (fun n i => real_add n (square (elt pi i))) I a
  = a + norm2 I pi.
Proof.
  unfold norm2. revert a. induction I as [|i I IH]; intros a; cbn [fold_left].
  - ideal_ops. lra.
  - rewrite IH, (IH (real_add _ _)). ideal_ops. lra.
Qed.

Lemma norm2_nil (pi : Vector R) : norm2 [] pi = 0.
Proof. reflexivity. Qed.

Lemma norm2_cons (i : MultiplierIndex) (I : list MultiplierIndex)
    (pi : Vector R) :
  norm2 (i :: I) pi = elt pi i * elt pi i + norm2 I pi.
Proof.
  unfold norm2 at 1. cbn [fold_left]. rewrite norm2_shift.
  unfold square. ideal_ops. lra.
Qed.

(** *** The two error sums *)

Lemma doUpdate_error_nonneg (row : MultiplierIndex) (A : Matrix R)
    (rhs : Vector R) (SOR rowSum : R) (pi : Vector R) :
  0 <= fst (doUpdate row A rhs SOR rowSum pi).
Proof.
  unfold doUpdate, square. cbn [fst]. ideal_ops.
  generalize (elt rhs row - rowSum). intros x. nra.
Qed.

Lemma doUpdates_error_nonneg (rows : list MultiplierIndex) (A : Matrix R)
    (rhs : Vector R) (SOR : R) (rowSums : list R) (pi : Vector R) :
  0 <= fst (doUpdates rows A rhs SOR rowSums pi).
Proof.
  rewrite doUpdates_rowwise.
  assert (Hgen : forall l (acc : R * Vector R), 0 <= fst acc ->
    0 <= fst (fold_left
      (fun acc i =>
         (real_add (fst acc)
            (fst (doUpdate (ix rows i) A rhs SOR (elt rowSums i) (snd acc))),
          snd (doUpdate (ix rows i) A rhs SOR (elt rowSums i) (snd acc))))
      l acc)).
  { induction l as [|i l IH]; intros acc Hacc; [exact Hacc|].
    cbn [fold_left]. apply IH. cbn [fst]. ideal_ops.
    pose proof (doUpdate_error_nonneg (ix rows i) A rhs SOR
                  (elt rowSums i) (snd acc)).
    lra. }
  apply Hgen. cbn [fst]. ideal_ops. lra.
Qed.

Section BodiesKeepOrder.
Variable participating : list MultiplierIndex.
Variable A : Matrix R.
Variable rhs : Vector R.
Variable sor : R.

Lemma uncondBody_ordered rt s :
  sums_ordered s -> sums_ordered (snd (uncondBody participating A rhs sor rt s)).
Proof.
  unfold sums_ordered, uncondBody. intros [H0 H1].
  pose proof (doUpdates_error_nonneg (UncondRT.m_mults rt) A rhs sor
    (doRowSums participating (UncondRT.m_mults rt) A (sw_pi s)) (sw_pi s)) as He.
  destruct (doUpdates _ _ _ _ _ _) as [e p]. cbn in *. lra.
Qed.

Lemma normalBody_ordered rt s :
  sums_ordered s -> sums_ordered (snd (normalBody participating A rhs sor rt s)).
Proof.
  unfold sums_ordered, normalBody. intros [H0 H1].
  destruct (UniContactRT.m_type rt); try (split; assumption).
  pose proof (doUpdate_error_nonneg (UniContactRT.m_Nk rt) A rhs sor
    (doRowSum participating (UniContactRT.m_Nk rt) A (sw_pi s)) (sw_pi s)) as He.
  destruct (doUpdate _ _ _ _ _ _) as [e p].
  destruct (boundUnilateral _ _) as [c x].
  destruct (decide (c = UniActive)); cbn in *; lra.
Qed.

Lemma frictionBody_ordered rt s :
  sums_ordered s ->
  sums_ordered (snd (frictionBody participating A rhs sor rt s)).
Proof.
  unfold sums_ordered, frictionBody. intros [H0 H1].
  destruct (_ || _); [split; assumption|].
  pose proof (doUpdates_error_nonneg (UniContactRT.m_Fk rt) A rhs sor
    (doRowSums participating (UniContactRT.m_Fk rt) A (sw_pi s)) (sw_pi s)) as He.
  destruct (doUpdates _ _ _ _ _ _) as [e p].
  destruct (boundVector _ _ _) as [c x].
  destruct (decide (c = Rolling)); cbn in *; lra.
Qed.

Lemma boundedBody_ordered rt s :
  sums_ordered s ->
  sums_ordered (snd (boundedBody participating A rhs sor rt s)).
Proof.
  unfold sums_ordered, boundedBody. intros [H0 H1].
  pose proof (doUpdate_error_nonneg (BoundedRT.m_ix rt) A rhs sor
    (doRowSum participating (BoundedRT.m_ix rt) A (sw_pi s)) (sw_pi s)) as He.
  destruct (doUpdate _ _ _ _ _ _) as [e p].
  destruct (boundScalar _ _ _) as [c x].
  destruct (decide (c = Engaged)); cbn in *; lra.
Qed.

Lemma stateLtdBody_ordered rt s :
  sums_ordered s ->
  sums_ordered (snd (stateLtdBody participating A rhs sor rt s)).
Proof.
  unfold sums_ordered, stateLtdBody. intros [H0 H1].
  pose proof (doUpdates_error_nonneg (StateLtdFrictionRT.m_Fk rt) A rhs sor
    (doRowSums participating (StateLtdFrictionRT.m_Fk rt) A (sw_pi s))
    (sw_pi s)) as He.
  destruct (doUpdates _ _ _ _ _ _) as [e p].
  destruct (boundVector _ _ _) as [c x].
  destruct (decide (c = Rolling)); cbn in *; lra.
Qed.

Lemma consLtdBody_ordered rt s :
  sums_ordered s ->
  sums_ordered (snd (consLtdBody participating A rhs sor rt s)).
Proof.
  unfold sums_ordered, consLtdBody. intros [H0 H1].
  pose proof (doUpdates_error_nonneg (ConstraintLtdFrictionRT.m_Fk rt) A rhs sor
    (doRowSums participating (ConstraintLtdFrictionRT.m_Fk rt) A (sw_pi s))
    (sw_pi s)) as He.
  destruct (doUpdates _ _ _ _ _ _) as [e p].
  destruct (boundFriction _ _ _ _) as [c x].
  destruct (decide (c = Rolling)); cbn in *; lra.
Qed.

End BodiesKeepOrder.

(** In exact arithmetic the two accumulators of a sweep end with
    [sum2all >= sum2enf >= 0], whatever the relaxation factor, the records
    and the multiplier vector the sweep starts from. *)
Lemma sweep_keeps_sums_ordered
    (participating : list MultiplierIndex) (A : Matrix R) (rhs : Vector R)
    (sor : R) (cs : Constraints R) (pi : Vector R) :
  0 <= sum2enf (snd (sweep participating A rhs sor cs pi)) /\
  sum2enf (snd (sweep participating A rhs sor cs pi))
  <= sum2all (snd (sweep participating A rhs sor cs pi)).
Proof.
  rewrite sweep_snd. cbn [snd].
  apply (forEach_invariant _ sums_ordered (consLtdBody_ordered _ _ _ _)).
  apply (forEach_invariant _ sums_ordered (stateLtdBody_ordered _ _ _ _)).
  apply (forEach_invariant _ sums_ordered (boundedBody_ordered _ _ _ _)).
  apply (forEach_invariant _ sums_ordered (frictionBody_ordered _ _ _ _)).
  apply (forEach_invariant _ sums_ordered (normalBody_ordered _ _ _ _)).
  apply (forEach_invariant _ sums_ordered (uncondBody_ordered _ _ _ _)).
  unfold sums_ordered. cbn. lra.
Qed.

(** The comparisons of exact arithmetic order every value as [sor_ordered_at]
    asks. *)
Lemma sor_ordered_exact (x : R) : sor_ordered_at x = true.
Proof.
  unfold sor_ordered_at. ideal_ops.
  assert (Hxx : Rltb x x = false) by (apply Rltb_false; lra).
  rewrite Hxx. cbn [negb andb].
  destruct (Rltb (1 / 10) x) eqn:E; [|reflexivity].
  apply Rltb_true in E.
  assert (H1 : Rltb x (1 / 10) = false) by (apply Rltb_false; lra).
  assert (H2 : Rltb x (8 / 10 * x) = false) by (apply Rltb_false; lra).
  rewrite H1, H2. reflexivity.
Qed.

End Ideal.

(** ** The two error sums, for any arithmetic *)

Section Accounting.
Context {Real : Type} {ops : RealOps Real}.
Local Open Scope real_ops_scope.
Variable participating : list MultiplierIndex.
Variable A : Matrix Real.
Variable rhs : Vector Real.
Variable sor : Real.

Lemma uncondBody_accounts rt s :
  accounts
    (fst (doUpdates (UncondRT.m_mults rt) A rhs sor
            (doRowSums participating (UncondRT.m_mults rt) A (sw_pi s))
            (sw_pi s)))
    true s (snd (uncondBody participating A rhs sor rt s)).
Proof.
  unfold accounts, uncondBody.
  destruct (doUpdates _ _ _ _ _ _) as [e p]. split; reflexivity.
Qed.

Lemma normalBody_accounts rt s :
  UniContactRT.m_type rt = Participate ->
  accounts
    (fst (doUpdate (UniContactRT.m_Nk rt) A rhs sor
            (doRowSum participating (UniContactRT.m_Nk rt) A (sw_pi s))
            (sw_pi s)))
    (bool_decide
       (UniContactRT.m_contactCond
          (fst (normalBody participating A rhs sor rt s)) = UniActive))
    s (snd (normalBody participating A rhs sor rt s)).
Proof.
  intros Hty. unfold accounts, normalBody. rewrite Hty.
  destruct (doUpdate _ _ _ _ _ _) as [e p].
  destruct (boundUnilateral _ _) as [c x]. cbn.
  split; [reflexivity|].
  destruct (decide (c = UniActive)) as [Hc|Hc].
  - rewrite bool_decide_eq_true_2 by exact Hc. reflexivity.
  - rewrite bool_decide_eq_false_2 by exact Hc. reflexivity.
Qed.

Lemma normalBody_passes_over rt s :
  UniContactRT.m_type rt <> Participate ->
  normalBody participating A rhs sor rt s = (rt, s).
Proof.
  intros Hty. unfold normalBody.
  destruct (UniContactRT.m_type rt); congruence.
Qed.

Lemma frictionBody_accounts rt s :
  UniContactRT.m_type rt <> Observe ->
  UniContactRT.hasFriction rt = true ->
  accounts
    (fst (doUpdates (UniContactRT.m_Fk rt) A rhs sor
            (doRowSums participating (UniContactRT.m_Fk rt) A (sw_pi s))
            (sw_pi s)))
    (bool_decide
       (UniContactRT.m_frictionCond
          (fst (frictionBody participating A rhs sor rt s)) = Rolling))
    s (snd (frictionBody participating A rhs sor rt s)).
Proof.
  intros Hty Hf. unfold accounts, frictionBody. rewrite Hf.
  replace (match UniContactRT.m_type rt with Observe => true | _ => false end)
    with false by (destruct (UniContactRT.m_type rt); congruence).
  cbn [negb orb].
  destruct (doUpdates _ _ _ _ _ _) as [e p].
  destruct (boundVector _ _ _) as [c x]. cbn.
  split; [reflexivity|].
  destruct (decide (c = Rolling)) as [Hc|Hc].
  - rewrite bool_decide_eq_true_2 by exact Hc. reflexivity.
  - rewrite bool_decide_eq_false_2 by exact Hc. reflexivity.
Qed.

Lemma frictionBody_passes_over rt s :
  UniContactRT.m_type rt = Observe \/ UniContactRT.hasFriction rt = false ->
  frictionBody participating A rhs sor rt s = (rt, s).
Proof.
  unfold frictionBody. intros [->| ->]; [reflexivity|].
  rewrite orb_true_r. reflexivity.
Qed.

Lemma boundedBody_accounts rt s :
  accounts
    (fst (doUpdate (BoundedRT.m_ix rt) A rhs sor
            (doRowSum participating (BoundedRT.m_ix rt) A (sw_pi s))
            (sw_pi s)))
    (bool_decide
       (BoundedRT.m_boundedCond
          (fst (boundedBody participating A rhs sor rt s)) = Engaged))
    s (snd (boundedBody participating A rhs sor rt s)).
Proof.
  unfold accounts, boundedBody.
  destruct (doUpdate _ _ _ _ _ _) as [e p].
  destruct (boundScalar _ _ _) as [c x]. cbn.
  split; [reflexivity|].
  destruct (decide (c = Engaged)) as [Hc|Hc].
  - rewrite bool_decide_eq_true_2 by exact Hc. reflexivity.
  - rewrite bool_decide_eq_false_2 by exact Hc. reflexivity.
Qed.

Lemma stateLtdBody_accounts rt s :
  accounts
    (fst (doUpdates (StateLtdFrictionRT.m_Fk rt) A rhs sor
            (doRowSums participating (StateLtdFrictionRT.m_Fk rt) A (sw_pi s))
            (sw_pi s)))
    (bool_decide
       (StateLtdFrictionRT.m_frictionCond
          (fst (stateLtdBody participating A rhs sor rt s)) = Rolling))
    s (snd (stateLtdBody participating A rhs sor rt s)).
Proof.
  unfold accounts, stateLtdBody.
  destruct (doUpdates _ _ _ _ _ _) as [e p].
  destruct (boundVector _ _ _) as [c x]. cbn.
  split; [reflexivity|].
  destruct (decide (c = Rolling)) as [Hc|Hc].
  - rewrite bool_decide_eq_true_2 by exact Hc. reflexivity.
  - rewrite bool_decide_eq_false_2 by exact Hc. reflexivity.
Qed.

Lemma consLtdBody_accounts rt s :
  accounts
    (fst (doUpdates (ConstraintLtdFrictionRT.m_Fk rt) A rhs sor
            (doRowSums participating (ConstraintLtdFrictionRT.m_Fk rt) A
               (sw_pi s))
            (sw_pi s)))
    (bool_decide
       (ConstraintLtdFrictionRT.m_frictionCond
          (fst (consLtdBody participating A rhs sor rt s)) = Rolling))
    s (snd (consLtdBody participating A rhs sor rt s)).
Proof.
  unfold accounts, consLtdBody.
  destruct (doUpdates _ _ _ _ _ _) as [e p].
  destruct (boundFriction _ _ _ _) as [c x]. cbn.
  split; [reflexivity|].
  destruct (decide (c = Rolling)) as [Hc|Hc].
  - rewrite bool_decide_eq_true_2 by exact Hc. reflexivity.
  - rewrite bool_decide_eq_false_2 by exact Hc. reflexivity.
Qed.

End Accounting.

(** ** The two error sums of a sweep *)

(** C7, as the code has it.  In any arithmetic a sweep starts both sums at
    0 and runs its six loops in the order of the source, each on what the
    one before left; every pass that is not passed over adds the squared
    error of its update to [sum2all], and adds it to [sum2enf] exactly when
    the status the pass records is the enforced one ([UniActive],
    [Engaged], [Rolling]; always for an unconditional constraint), while a
    pass that is passed over changes neither sum.  In exact arithmetic the
    sums of every sweep therefore satisfy [sum2all >= sum2enf >= 0]. *)
Theorem sweep_sums_accounting :
  (forall (Real : Type) (ops : RealOps Real)
          (participating : list MultiplierIndex) (A : Matrix Real)
          (rhs : Vector Real) (sor : Real),
     (forall rt s,
        accounts
          (fst (doUpdates (UncondRT.m_mults rt) A rhs sor
                  (doRowSums participating (UncondRT.m_mults rt) A (sw_pi s))
                  (sw_pi s)))
          true s (snd (uncondBody participating A rhs sor rt s))) /\
     (forall rt s,
        UniContactRT.m_type rt = Participate ->
        accounts
          (fst (doUpdate (UniContactRT.m_Nk rt) A rhs sor
                  (doRowSum participating (UniContactRT.m_Nk rt) A (sw_pi s))
                  (sw_pi s)))
          (bool_decide
             (UniContactRT.m_contactCond
                (fst (normalBody participating A rhs sor rt s)) = UniActive))
          s (snd (normalBody participating A rhs sor rt s))) /\
     (forall rt s,
        UniContactRT.m_type rt <> Participate ->
        normalBody participating A rhs sor rt s = (rt, s)) /\
     (forall rt s,
        UniContactRT.m_type rt <> Observe ->
        UniContactRT.hasFriction rt = true ->
        accounts
          (fst (doUpdates (UniContactRT.m_Fk rt) A rhs sor
                  (doRowSums participating (UniContactRT.m_Fk rt) A (sw_pi s))
                  (sw_pi s)))
          (bool_decide
             (UniContactRT.m_frictionCond
                (fst (frictionBody participating A rhs sor rt s)) = Rolling))
          s (snd (frictionBody participating A rhs sor rt s))) /\
     (forall rt s,
        UniContactRT.m_type rt = Observe
        \/ UniContactRT.hasFriction rt = false ->
        frictionBody participating A rhs sor rt s = (rt, s)) /\
     (forall rt s,
        accounts
          (fst (doUpdate (BoundedRT.m_ix rt) A rhs sor
                  (doRowSum participating (BoundedRT.m_ix rt) A (sw_pi s))
                  (sw_pi s)))
          (bool_decide
             (BoundedRT.m_boundedCond
                (fst (boundedBody participating A rhs sor rt s)) = Engaged))
          s (snd (boundedBody participating A rhs sor rt s))) /\
     (forall rt s,
        accounts
          (fst (doUpdates (StateLtdFrictionRT.m_Fk rt) A rhs sor
                  (doRowSums participating (StateLtdFrictionRT.m_Fk rt) A
                     (sw_pi s))
                  (sw_pi s)))
          (bool_decide
             (StateLtdFrictionRT.m_frictionCond
                (fst (stateLtdBody participating A rhs sor rt s)) = Rolling))
          s (snd (stateLtdBody participating A rhs sor rt s))) /\
     (forall rt s,
        accounts
          (fst (doUpdates (ConstraintLtdFrictionRT.m_Fk rt) A rhs sor
                  (doRowSums participating (ConstraintLtdFrictionRT.m_Fk rt) A
                     (sw_pi s))
                  (sw_pi s)))
          (bool_decide
             (ConstraintLtdFrictionRT.m_frictionCond
                (fst (consLtdBody participating A rhs sor rt s)) = Rolling))
          s (snd (consLtdBody participating A rhs sor rt s))) /\
     (forall cs pi,
        let s0 := {| sw_pi := pi; sum2all := real_zero;
                     sum2enf := real_zero |} in
        let r1 := forEach (uncondBody participating A rhs sor)
                    (unconditional cs) s0 in
        let r2 := forEach (normalBody participating A rhs sor)
                    (uniContact cs) (snd r1) in
        let r3 := forEach (frictionBody participating A rhs sor)
                    (fst r2) (snd r2) in
        let r4 := forEach (boundedBody participating A rhs sor)
                    (bounded cs) (snd r3) in
        let r5 := forEach (stateLtdBody participating A rhs sor)
                    (stateLtdFriction cs) (snd r4) in
        let r6 := forEach (consLtdBody participating A rhs sor)
                    (consLtdFriction cs) (snd r5) in
        snd (sweep participating A rhs sor cs pi) = snd r6)) /\
  (forall (participating : list MultiplierIndex) (A : Matrix R)
          (rhs : Vector R) (sor : R) (cs : Constraints R) (pi : Vector R),
     (0 <= sum2enf (snd (sweep participating A rhs sor cs pi)))%R /\
     (sum2enf (snd (sweep participating A rhs sor cs pi))
      <= sum2all (snd (sweep participating A rhs sor cs pi)))%R).
Proof.
  split.
  - intros Real ops participating A rhs sor.
    split; [apply uncondBody_accounts|].
    split; [apply normalBody_accounts|].
    split; [apply normalBody_passes_over|].
    split; [apply frictionBody_accounts|].
    split; [apply frictionBody_passes_over|].
    split; [apply boundedBody_accounts|].
    split; [apply stateLtdBody_accounts|].
    split; [apply consLtdBody_accounts|].
    intros cs pi. cbv zeta. rewrite sweep_snd. reflexivity.
  - apply sweep_keeps_sums_ordered.
Qed.

(** ** The theorems at sample inputs *)

Ltac in_range :=
  let i := fresh "i" in
  let Hi := fresh "Hi" in
  intros i Hi;
  repeat (apply elem_of_cons in Hi as [->|Hi]; [cbn; lia|]);
  apply elem_of_nil in Hi; destruct Hi.

Ltac no_dup := apply (bool_decide_unpack _); vm_compute; exact I.

Section Samples.

Lemma doUpdate_spec_witness :
  0 < length [0%R] /\
  fst (doUpdate 0 [[2]]%R [1]%R 1%R 0%R [0]%R)
  = ((elt [1]%R 0 - 0) * (elt [1]%R 0 - 0))%R.
Proof.
  split; [cbn; lia|].
  apply (doUpdate_spec 0 [[2]]%R [1]%R 1%R 0%R [0]%R). cbn. lia.
Defined.

Lemma solve_converges_iff_below_tolerance_witness :
  [0; 1] <> [] /\
  result oneSweepCall = false /\
  out_pi oneSweepCall
  = sw_pi (snd (sweep [0; 1] [[4; 1]; [1; 3]]%float [1; 2]%float 1%float
                  (uncondPair float) [0; 0]%float)) /\
  out_pi oneSweepCall = [0x1p-2; 0x1.5555555555555p-1]%float /\
  m_nFail (out_self oneSweepCall) 0 = 1%Z.
Proof.
  assert (H : [0; 1] <> []) by discriminate.
  pose proof (solve_converges_iff_below_tolerance oneSweepSolver 0 [0; 1]
                [[4; 1]; [1; 3]]%float [] [1; 2]%float [0; 0]%float
                (uncondPair float) H) as T.
  cbv zeta in T.
  destruct T as (_ & Hstep & _ & _ & _ & Hfalse & _).
  assert (Hres : result oneSweepCall = false) by (vm_compute; reflexivity).
  destruct (Hfalse Hres) as (Hpi & _ & _ & Hfail & _).
  destruct (Hstep 0) as [Hpi1 _].
  split; [exact H|]. split; [exact Hres|].
  split; [exact (eq_trans Hpi Hpi1)|].
  split; [|exact Hfail].
  refine (eq_trans (eq_trans Hpi Hpi1) _). vm_compute. reflexivity.
Defined.

Lemma solve_never_updates_uniSpeed_witness :
  onlyUniSpeed speedOnly /\ [0] <> [] /\ (1 <= 100)%Z /\
  out_pi (solve sampleSolver 0 [0] [[1]]%float [] [1]%float [0]%float
            speedOnly) = [0]%float /\
  out_cons (solve sampleSolver 0 [0] [[1]]%float [] [1]%float [0]%float
              speedOnly) = speedOnly.
Proof.
  assert (H1 : onlyUniSpeed speedOnly) by (repeat split).
  assert (H2 : [0] <> []) by discriminate.
  assert (H3 : (1 <= m_maxIters sampleSolver)%Z) by (cbn; lia).
  split; [exact H1|]. split; [exact H2|]. split; [lia|].
  destruct (solve_never_updates_uniSpeed sampleSolver 0 [0] [[1]]%float
              [] [1]%float [0]%float speedOnly H1 H2 H3) as (Hpi & Hcs & _).
  split; assumption.
Defined.

Lemma boundVector_by_computed_norm_witness :
  NoDup [0; 1] /\
  (norm2 [0; 1] [6; 8]%float <=? square 5%float)%re = false /\
  fst (boundVector 5%float [0; 1] [6; 8]%float) = Sliding /\
  elt (snd (boundVector 5%float [0; 1] [6; 8]%float)) 0
  = (6%float * real_sqrt (square 5%float / norm2 [0; 1] [6; 8]%float))%re /\
  snd (boundVector 5%float [0; 1] [6; 8]%float) = [3; 4]%float.
Proof.
  assert (H1 : NoDup [0; 1]) by no_dup.
  assert (H2 : forall i, i ∈ [0; 1] -> i < length [6; 8]%float) by in_range.
  assert (H3 : (norm2 [0; 1] [6; 8]%float <=? square 5%float)%re = false)
    by (vm_compute; reflexivity).
  split; [exact H1|]. split; [exact H3|].
  destruct (boundVector_by_computed_norm 5%float [0; 1] [6; 8]%float H1 H2)
    as (_ & Hslide & _).
  destruct (Hslide H3) as [Hst Hscaled].
  split; [exact Hst|].
  split; [exact (Hscaled 0 (list_elem_of_here 0 [1]))|].
  vm_compute. reflexivity.
Defined.

Lemma projections_applied_twice_witness :
  (real_zero <? 1%float * real_zero)%re = false /\
  (1 <? 1)%float = false /\ (0 <? 0)%float = false /\
  (1 <? 0)%float = false /\
  boundUnilateral 1%float (snd (boundUnilateral 1%float 5%float))
  = (UniActive, snd (boundUnilateral 1%float 5%float)) /\
  boundScalar 0%float (snd (boundScalar 0%float 5%float 1%float)) 1%float
  = (Engaged, snd (boundScalar 0%float 5%float 1%float)) /\
  (boundScalar_twice_as_once 0%float 5%float 1%float
   <-> fst (boundScalar 0%float 5%float 1%float) = Engaged) /\
  fst (boundVector 5%float [0; 1] [3; 4; 5]%float) = Rolling /\
  boundVector_twice_as_once 5%float [0; 1] [3; 4; 5]%float /\
  fst (boundFriction 1%float [2] [0; 1] [3; 4; 5]%float) = Rolling /\
  boundFriction_twice_as_once 1%float [2] [0; 1] [3; 4; 5]%float.
Proof.
  assert (H1 : (real_zero <? 1%float * real_zero)%re = false)
    by (vm_compute; reflexivity).
  assert (H2 : (1 <? 1)%float = false) by (vm_compute; reflexivity).
  assert (H3 : (0 <? 0)%float = false) by (vm_compute; reflexivity).
  assert (H4 : (1 <? 0)%float = false) by (vm_compute; reflexivity).
  assert (H5 : fst (boundVector 5%float [0; 1] [3; 4; 5]%float) = Rolling)
    by (vm_compute; reflexivity).
  assert (H6 : fst (boundFriction 1%float [2] [0; 1] [3; 4; 5]%float)
               = Rolling) by (vm_compute; reflexivity).
  split; [exact H1|]. split; [exact H2|]. split; [exact H3|].
  split; [exact H4|].
  pose proof (projections_applied_twice 1%float 0%float 1%float 5%float
                5%float 1%float [0; 1] [2] [0; 1] [3; 4; 5]%float
                H1 H2 H3 H4) as T.
  cbv zeta in T.
  destruct T as ((Hu & Hs) & (_ & Hiff) & (Hv & _) & (Hf & _)).
  split; [exact Hu|]. split; [exact Hs|]. split; [exact Hiff|].
  split; [exact H5|]. split; [exact (proj1 (Hv H5))|].
  split; [exact H6 | exact (proj1 (Hf H6))].
Defined.

Lemma sweep_sums_accounting_witness :
  UniContactRT.m_type (sampleContact Participate) = Participate /\
  accounts 4%float false
    {| sw_pi := [0; 0; 5]%float; sum2all := 0%float; sum2enf := 0%float |}
    (snd (normalBody [0; 1; 2] identity3 [0; 0; 3]%float 1%float
            (sampleContact Participate)
            {| sw_pi := [0; 0; 5]%float;
               sum2all := 0%float; sum2enf := 0%float |})).
Proof.
  split; [reflexivity|].
  exact (proj1 (proj2 (proj1 sweep_sums_accounting float binary64 [0; 1; 2]
                         identity3 [0; 0; 3]%float 1%float))
           (sampleContact Participate)
           {| sw_pi := [0; 0; 5]%float;
              sum2all := 0%float; sum2enf := 0%float |} eq_refl).
Defined.


(** C4 as stated fails.  In exact arithmetic, at the cap [L = 0] over
    [IV = {0}] the vector [pi = (1)] has norm 1 > 0 and the scale factor is
    [sqrt(0/1) = 0], which is not strictly between 0 and 1; binary64 gives
    the same.  In binary64 the scaled vector need not have norm exactly
    [L]: with [L = 1], [pi = (1, 1)] is scaled by [sqrt(1/2)] to a vector
    whose sum of squares is [1 + 2^-52], above the squared cap.  And the
    factor is 0 under a positive cap when the sum of squares overflows:
    [pi = (2^700)] with [L = 1] is scaled to 0. *)
Lemma boundVector_as_specified_fails :
  ~ boundVector_as_specified 0%R [0] [1%R] /\
  (boundVector 0%float [0] [1%float] = (Sliding, [0%float]) /\
   real_sqrt (square 0%float / norm2 [0] [1%float])%re = 0%float) /\
  (boundVector 1%float [0; 1] [1; 1]%float
   = (Sliding, [0x1.6a09e667f3bcdp-1; 0x1.6a09e667f3bcdp-1]%float) /\
   norm2 [0; 1] (snd (boundVector 1%float [0; 1] [1; 1]%float))
   = 0x1.0000000000001p+0%float /\
   (norm2 [0; 1] (snd (boundVector 1%float [0; 1] [1; 1]%float))
    <=? square 1%float)%re = false) /\
  (boundVector 1%float [0] [0x1p700%float] = (Sliding, [0%float]) /\
   real_sqrt (square 1%float / norm2 [0] [0x1p700%float])%re = 0%float).
Proof.
  split.
  - unfold boundVector_as_specified. cbv zeta. intros (_ & Hslide & _).
    assert (Hlen : R_sqrt.sqrt (norm2 [0] [1%R]) = 1%R).
    { rewrite norm2_cons, norm2_nil. change (elt [1%R] 0) with 1%R.
      replace (1 * 1 + 0)%R with (1 * 1)%R by lra. apply sqrt_square. lra. }
    rewrite Hlen in Hslide.
    destruct Hslide as ((Hpos & _) & _); lra.
  - repeat split; vm_compute; reflexivity.
Qed.

(** C5 as stated fails for each projection: after a clamp, the second
    application reports another status than the first.  In binary64:
    [boundUnilateral 1 5] gives [(UniOff, 0)] and, applied to that 0,
    [(UniActive, 0)]; likewise [SlipHigh] then [Engaged], and [Sliding]
    then [Rolling].  In exact arithmetic the sign bound fails the same
    way.  The vector caps can also change the multipliers again: in
    binary64 the cap 1 applied to its own output of [pi = (1, 1)], and the
    friction cap with [mu = 1/2] applied to its own output of
    [pi = (1, 1, 1)], scale once more and report [Sliding] once more. *)
Lemma second_projection_differs :
  ~ boundUnilateral_twice_as_once 1%float 5%float /\
  ~ boundScalar_twice_as_once 0%float 5%float 1%float /\
  ~ boundVector_twice_as_once 5%float [0; 1] [6; 8]%float /\
  ~ boundFriction_twice_as_once 1%float [2] [0; 1] [6; 8; 5]%float /\
  ~ boundUnilateral_twice_as_once 1%R 5%R /\
  (boundVector 1%float [0; 1] [1; 1]%float
   = (Sliding, [0x1.6a09e667f3bcdp-1; 0x1.6a09e667f3bcdp-1]%float) /\
   boundVector 1%float [0; 1]
     [0x1.6a09e667f3bcdp-1; 0x1.6a09e667f3bcdp-1]%float
   = (Sliding, [0x1.6a09e667f3bccp-1; 0x1.6a09e667f3bccp-1]%float)) /\
  (boundFriction 0x1p-1%float [2] [0; 1] [1; 1; 1]%float
   = (Sliding, [0x1.6a09e667f3bcdp-2; 0x1.6a09e667f3bcdp-2; 1]%float) /\
   boundFriction 0x1p-1%float [2] [0; 1]
     [0x1.6a09e667f3bcdp-2; 0x1.6a09e667f3bcdp-2; 1]%float
   = (Sliding, [0x1.6a09e667f3bccp-2; 0x1.6a09e667f3bccp-2; 1]%float)).
Proof.
  unfold boundUnilateral_twice_as_once, boundScalar_twice_as_once,
    boundVector_twice_as_once, boundFriction_twice_as_once.
  split; [intros H; vm_compute in H; discriminate H|].
  split; [intros H; vm_compute in H; discriminate H|].
  split; [intros H; vm_compute in H; discriminate H|].
  split; [intros H; vm_compute in H; discriminate H|].
  split.
  - intros H. unfold boundUnilateral in H. ideal_ops.
    assert (E : Rltb 0 (1 * 5) = true) by (apply Rltb_true; lra).
    rewrite E in H. cbn [snd] in H.
    assert (E' : Rltb 0 (1 * 0) = false) by (apply Rltb_false; lra).
    rewrite E' in H. discriminate H.
  - repeat split; vm_compute; reflexivity.
Qed.

Example boundUnilateral_twice_binary64 :
  boundUnilateral 1%float 5%float = (UniOff, 0%float) /\
  boundUnilateral 1%float 0%float = (UniActive, 0%float).
Proof. split; vm_compute; reflexivity. Qed.

(** C7 as stated fails in binary64 once a sum is NaN: no comparison with
    NaN holds.  One sweep over the two unconditional rows of
    [A = (2^1023 -2^1023; -2^1023 2^1023)] from [pi = (4, 4)] forms the row
    sum [inf + -inf], so the residual, its square and both sums are NaN:
    neither [sum2enf >= 0] nor [sum2all >= sum2enf] holds. *)
Lemma sweep_sums_unordered_binary64 :
  PrimFloat.is_nan (sum2all overflowSweep) = true /\
  PrimFloat.is_nan (sum2enf overflowSweep) = true /\
  (real_zero <=? sum2enf overflowSweep)%re = false /\
  (sum2enf overflowSweep <=? sum2all overflowSweep)%re = false.
Proof. repeat split; vm_compute; reflexivity. Qed.

(** The same inside a call of [solve] on data of moderate size: with the
    two rows coupled by [10^30] the multipliers overflow in the twelfth
    sweep, the fourteenth sweep starts from NaN and leaves NaN in both
    sums, and the call ends after its 100 sweeps with [false] and NaN
    multipliers. *)
Example solve_reaches_nan_binary64 :
  cur_pi (couplingRun 12) = [neg_infinity; neg_infinity] /\
  PrimFloat.is_nan
    (sum2enf (snd (sweep [0; 1] couplingA [1; 1]%float
                     (cur_sor (couplingRun 13)) (cur_cons (couplingRun 13))
                     (cur_pi (couplingRun 13))))) = true /\
  result (solve sampleSolver 0 [0; 1] couplingA [] [1; 1]%float [0; 0]%float
            (uncondPair float)) = false /\
  map PrimFloat.is_nan
    (out_pi (solve sampleSolver 0 [0; 1] couplingA [] [1; 1]%float
               [0; 0]%float (uncondPair float))) = [true; true].
Proof. repeat split; vm_compute; reflexivity. Qed.

(** The relaxation factor on the diverging system, in binary64: the ratio
    of the residuals exceeds 1 from the second sweep on, [sor] is lowered
    by the factor [.8] each time, reaches [.1] in the twelfth iteration and
    stays there. *)
Example sor_shrinks_to_floor_binary64 :
  map (fun k => cur_sor (divergingRun k)) (seq 0 5)
  = [1; 1; 0x1.999999999999ap-1; 0x1.47ae147ae147cp-1;
     0x1.0624dd2f1a9fdp-1]%float /\
  map (fun k => decreasing (divergingRun k)) (seq 0 5)
  = [false; false; true; true; true] /\
  cur_sor (divergingRun 12) = real_tenth /\
  cur_sor (divergingRun 50) = real_tenth.
Proof. repeat split; vm_compute; reflexivity. Qed.

(** After a sweep whose enforced residual is zero the ratio of the next
    sweep is a quotient by zero: in binary64 it is [+inf], which exceeds 1,
    and [sor] is lowered. *)
Example gotWorse_after_zero_residual_binary64 :
  gotWorse false (Some 0%float) 0x1p-1%float = true /\
  gotWorse false None 0x1p-1%float = false.
Proof. split; vm_compute; reflexivity. Qed.

(** C9 as stated fails for a contact in mode [Observe]: it has friction,
    but step 3 passes it over.  With the identity for [A], right-hand side
    (1/4, 0, 1) and [pi = (0, 0, 1)], the step of the specification moves
    the friction multipliers to (1/4, 0), inside the cap 1/2 * |1|, and
    records [Rolling] with the squared error 1/16 in both sums; the code
    leaves [pi], the record and the sums as they were. *)
Lemma frictionBody_skips_observed_contact :
  UniContactRT.hasFriction (sampleContact Observe) = true /\
  frictionBody [0; 1; 2] identity3 [0x1p-2; 0; 1]%float 1%float
    (sampleContact Observe) sweepStart
  = (sampleContact Observe, sweepStart) /\
  frictionStep_any_mode [0; 1; 2] identity3 [0x1p-2; 0; 1]%float 1%float
    (sampleContact Observe) sweepStart
  = (UniContactRT.set_frictionCond Rolling (sampleContact Observe),
     {| sw_pi := [0x1p-2; 0; 1]%float;
        sum2all := 0x1p-4%float; sum2enf := 0x1p-4%float |}) /\
  frictionBody [0; 1; 2] identity3 [0x1p-2; 0; 1]%float 1%float
    (sampleContact Observe) sweepStart
  <> frictionStep_any_mode [0; 1; 2] identity3 [0x1p-2; 0; 1]%float 1%float
       (sampleContact Observe) sweepStart.
Proof.
  split; [reflexivity|]. split; [reflexivity|].
  split; [vm_compute; reflexivity|].
  intros H.
  apply (f_equal (fun r => UniContactRT.m_frictionCond (fst r))) in H.
  vm_compute in H. discriminate H.
Qed.

(** C3 at the failing input, evaluated in binary64: the one multiplier is
    a unilateral speed constraint with row [1 * pi = 1].  [solve] reports
    convergence after a single sweep and leaves [pi = 0] and the record. *)
Example solve_uniSpeed_binary64 :
  let out := solve sampleSolver 0 [0] [[1]]%float [] [1]%float [0]%float
               speedOnly in
  result out = true /\
  out_pi out = [0]%float /\
  out_cons out = speedOnly /\
  m_nIters (out_self out) 0 = 1%Z /\
  m_nFail (out_self out) 0 = 0%Z.
Proof. vm_compute. repeat split. Qed.

(** With the right-hand side -1 the row is solved by [pi = -1], which the
    sign condition [sign*pi <= 0] admits: [boundUnilateral] would leave it
    and report [UniActive].  [solve] still reports convergence after one
    sweep with [pi = 0], the residual of the row being -1. *)
Example solve_uniSpeed_admissible_binary64 :
  let out := solve sampleSolver 0 [0] [[1]]%float [] [(-1)%float] [0]%float
               speedOnly in
  result out = true /\
  out_pi out = [0]%float /\
  out_cons out = speedOnly /\
  (elt [(-1)%float] 0 - doRowSum [0] 0 [[1]]%float (out_pi out))%re
  = (-1)%float /\
  boundUnilateral 1%float (-1)%float = (UniActive, (-1)%float).
Proof. vm_compute. repeat split. Qed.

(** The sibling partition does what the unilateral speed one misses: the
    same row posed as a bounded scalar is solved to [pi = 1]. *)
Example solve_bounded_binary64 :
  let out := solve sampleSolver 0 [0] [[1]]%float [] [1]%float [0]%float
               boundedOnly in
  result out = true /\
  out_pi out = [1]%float /\
  map BoundedRT.m_boundedCond (bounded (out_cons out)) = [Engaged] /\
  m_nIters (out_self out) 0 = 2%Z.
Proof. vm_compute. repeat split. Qed.

(** A friction pair whose update exceeds [mu * normal] is scaled to the
    cone boundary and reports [Sliding]; inside the cone it reports
    [Rolling] and is left unscaled. *)
Example boundVector_scenarios_binary64 :
  boundVector 5%float [0; 1] [6; 8]%float = (Sliding, [3; 4]%float) /\
  boundVector 5%float [0; 1] [3; 4]%float = (Rolling, [3; 4]%float) /\
  boundVector 5%float [0; 1] [1; 2]%float = (Rolling, [1; 2]%float).
Proof. vm_compute. repeat split. Qed.

(** A unilateral contact whose multiplier violates the sign convention is
    clamped to zero by the first sweep, with status [UniOff]. *)
Example normalBody_releases_binary64 :
  let out := normalBody [0; 1; 2] identity3 [0; 0; 3]%float 1%float
               (sampleContact Participate)
               {| sw_pi := [0; 0; 5]%float;
                  sum2all := 0%float; sum2enf := 0%float |} in
  UniContactRT.m_contactCond (fst out) = UniOff /\
  sw_pi (snd out) = [0; 0; 0]%float /\
  sum2all (snd out) = 4%float /\
  sum2enf (snd out) = 0%float.
Proof. vm_compute. repeat split. Qed.

(** The row sums of the batch primitive are those of the single-row one. *)
Example doRowSums_binary64 :
  doRowSums [0; 1] [0; 1] [[4; 1]; [1; 3]]%float [1; 2]%float
  = [doRowSum [0; 1] 0 [[4; 1]; [1; 3]]%float [1; 2]%float;
     doRowSum [0; 1] 1 [[4; 1]; [1; 3]]%float [1; 2]%float] /\
  doRowSums [0; 1] [0; 1] [[4; 1]; [1; 3]]%float [1; 2]%float = [6; 7]%float.
Proof. vm_compute. repeat split. Qed.

End Samples.

(** * Further properties of the code *)

(** ** What the primitives read and write, in any arithmetic *)

Section Frames.
Context {Real : Type} {ops : RealOps Real}.

Lemma ix_elem (rows : list MultiplierIndex) (i : nat) :
  i < length rows -> ix rows i ∈ rows.
Proof.
  intros Hi. unfold ix, MultiplierIndex in *.
  destruct (rows !! i) as [r|] eqn:E.
  - cbn. apply list_elem_of_lookup. exists i. exact E.
  - apply lookup_ge_None_1 in E. lia.
Qed.

Lemma insert_elt_same (v : list Real) (i : nat) : <[i := elt v i]> v = v.
Proof.
  destruct (decide (i < length v)) as [Hi|Hi].
  - apply list_insert_id. apply lookup_elt, Hi.
  - apply list_insert_ge. lia.
Qed.

Lemma doRowSum_agree_acc (columns : list MultiplierIndex)
    (row : MultiplierIndex) (A : Matrix Real) (pi pi' : Vector Real)
    (a : Real) :
  (forall c, c ∈ columns -> elt pi c = elt pi' c) ->
  fold_left (fun rowSum cx =>
               real_add rowSum (real_mul (entry A row cx) (elt pi cx)))
            columns a
  = fold_left (fun rowSum cx =>
                 real_add rowSum (real_mul (entry A row cx) (elt pi' cx)))
              columns a.
Proof.
  revert a. induction columns as [|c columns IH]; intros a Hagree.
  - reflexivity.
  - cbn [fold_left]. rewrite (Hagree c) by apply list_elem_of_here.
    apply IH. intros c' Hc'. apply Hagree, list_elem_of_further, Hc'.
Qed.

(** A row sum reads [pi] at the given columns only: two multiplier vectors
    that agree there have the same row sums, for a single row and for a
    batch of rows, whatever they hold elsewhere. *)
Theorem rowSums_read_given_columns_only
    (columns rows : list MultiplierIndex) (row : MultiplierIndex)
    (A : Matrix Real) (pi pi' : Vector Real) :
  (forall c, c ∈ columns -> elt pi c = elt pi' c) ->
  doRowSum columns row A pi = doRowSum columns row A pi' /\
  doRowSums columns rows A pi = doRowSums columns rows A pi'.
Proof.
  intros Hagree. split.
  - apply doRowSum_agree_acc, Hagree.
  - rewrite !doRowSums_rowwise. apply map_ext. intros r.
    apply doRowSum_agree_acc, Hagree.
Qed.

(** [doRowSums] returns one sum per row, and the sum of row [rows[i]] is
    what [doRowSum] computes for that row: the batch loop, which runs over
    the columns first, adds the same products in the same order. *)
Theorem doRowSums_is_doRowSum_per_row
    (columns rows : list MultiplierIndex) (A : Matrix Real) (pi : Vector Real) :
  length (doRowSums columns rows A pi) = length rows /\
  forall i, i < length rows ->
    elt (doRowSums columns rows A pi) i = doRowSum columns (ix rows i) A pi.
Proof.
  rewrite doRowSums_rowwise. split; [apply length_map|].
  intros i Hi. unfold elt, ix, MultiplierIndex in *.
  rewrite list_lookup_fmap.
  destruct (rows !! i) as [r|] eqn:E.
  - reflexivity.
  - apply lookup_ge_None_1 in E. lia.
Qed.

Lemma doUpdate_frame (row : MultiplierIndex) (A : Matrix Real)
    (rhs : Vector Real) (SOR rowSum : Real) (pi : Vector Real) (j : nat) :
  length (snd (doUpdate row A rhs SOR rowSum pi)) = length pi /\
  (j <> row -> elt (snd (doUpdate row A rhs SOR rowSum pi)) j = elt pi j).
Proof.
  unfold doUpdate. cbn [snd].
  destruct (real_ltb real_zero (entry A row row)).
  - split; [apply length_insert|]. intros Hj. apply elt_insert_ne. congruence.
  - split; reflexivity.
Qed.

Lemma doUpdates_fold_frame (rows : list MultiplierIndex) (A : Matrix Real)
    (rhs : Vector Real) (SOR : Real) (rowSums : list Real) (j : nat)
    (l : list nat) (acc : Real * Vector Real) :
  (forall i, i ∈ l -> i < length rows) ->
  j ∉ rows ->
  let out := fold_left
      (fun acc i =>
         (real_add (fst acc)
            (fst (doUpdate (ix rows i) A rhs SOR (elt rowSums i) (snd acc))),
          snd (doUpdate (ix rows i) A rhs SOR (elt rowSums i) (snd acc))))
      l acc in
  length (snd out) = length (snd acc) /\ elt (snd out) j = elt (snd acc) j.
Proof.
  revert acc. induction l as [|i l IH]; intros acc Hl Hj; [split; reflexivity|].
  cbn [fold_left]. cbv zeta in IH.
  destruct (IH (real_add (fst acc)
                  (fst (doUpdate (ix rows i) A rhs SOR (elt rowSums i)
                          (snd acc))),
                snd (doUpdate (ix rows i) A rhs SOR (elt rowSums i)
                       (snd acc)))) as [Hlen Helt].
  { intros k Hk. apply Hl, list_elem_of_further, Hk. }
  { exact Hj. }
  cbn [fst snd] in Hlen, Helt.
  destruct (doUpdate_frame (ix rows i) A rhs SOR (elt rowSums i) (snd acc) j)
    as [Hlen1 Helt1].
  split; [rewrite Hlen; exact Hlen1|].
  rewrite Helt. apply Helt1. intros ->.
  apply Hj, ix_elem, Hl, list_elem_of_here.
Qed.

Lemma seq_bound (n i : nat) : i ∈ seq 0 n -> i < n.
Proof. intros Hi. apply list_elem_of_In, in_seq in Hi. lia. Qed.

Lemma doUpdates_frame (rows : list MultiplierIndex) (A : Matrix Real)
    (rhs : Vector Real) (SOR : Real) (rowSums : list Real) (pi : Vector Real)
    (j : nat) :
  length (snd (doUpdates rows A rhs SOR rowSums pi)) = length pi /\
  (j ∉ rows -> elt (snd (doUpdates rows A rhs SOR rowSums pi)) j = elt pi j).
Proof.
  rewrite doUpdates_rowwise. split.
  - clear j.
    assert (Hgen : forall l (acc : Real * Vector Real),
      length (snd (fold_left
        (fun acc i =>
           (real_add (fst acc)
              (fst (doUpdate (ix rows i) A rhs SOR (elt rowSums i) (snd acc))),
            snd (doUpdate (ix rows i) A rhs SOR (elt rowSums i) (snd acc))))
        l acc)) = length (snd acc)).
    { induction l as [|i l IH]; intros acc; [reflexivity|].
      cbn [fold_left]. rewrite IH. cbn [snd].
      apply (doUpdate_frame (ix rows i) A rhs SOR (elt rowSums i) (snd acc) 0). }
    apply (Hgen _ (real_zero, pi)).
  - intros Hj.
    apply (doUpdates_fold_frame rows A rhs SOR rowSums j
             (seq 0 (length rows)) (real_zero, pi)); [|exact Hj].
    intros i Hi. apply seq_bound, Hi.
Qed.

Lemma doUpdates_error_fold (rows : list MultiplierIndex) (A : Matrix Real)
    (rhs : Vector Real) (SOR : Real) (rowSums : list Real)
    (l : list nat) (acc : Real * Vector Real) :
  fst (fold_left
      (fun acc i =>
         (real_add (fst acc)
            (fst (doUpdate (ix rows i) A rhs SOR (elt rowSums i) (snd acc))),
          snd (doUpdate (ix rows i) A rhs SOR (elt rowSums i) (snd acc))))
      l acc)
  = fold_left
      (fun er2 i =>
         real_add er2
           (square (real_sub (elt rhs (ix rows i)) (elt rowSums i))))
      l (fst acc).
Proof.
  revert acc. induction l as [|i l IH]; intros acc; [reflexivity|].
  cbn [fold_left]. rewrite IH. reflexivity.
Qed.

(** [doUpdates] assigns to the entries of [pi] at its rows only and keeps
    the length of [pi]; the error it returns is the sum of the squared
    differences between [rhs] and the row sums it was given, whatever [A],
    the relaxation factor and [pi] are, and whether or not a nonpositive
    diagonal made it skip a row. *)
Theorem doUpdates_writes_rows_only
    (rows : list MultiplierIndex) (A : Matrix Real) (rhs : Vector Real)
    (SOR : Real) (rowSums : list Real) (pi : Vector Real) :
  length (snd (doUpdates rows A rhs SOR rowSums pi)) = length pi /\
  (forall j, j ∉ rows ->
     elt (snd (doUpdates rows A rhs SOR rowSums pi)) j = elt pi j) /\
  fst (doUpdates rows A rhs SOR rowSums pi)
  = fold_left
      (fun er2 i =>
         real_add er2
           (square (real_sub (elt rhs (ix rows i)) (elt rowSums i))))
      (seq 0 (length rows)) real_zero.
Proof.
  split; [apply (doUpdates_frame rows A rhs SOR rowSums pi 0)|].
  split; [intros j; apply doUpdates_frame|].
  rewrite doUpdates_rowwise. apply doUpdates_error_fold.
Qed.

End Frames.

(** ** What a sweep and a call write, in any arithmetic *)

Section SweepFrames.
Context {Real : Type} {ops : RealOps Real}.

Lemma boundVector_frame (maxLen : Real) (IV : list MultiplierIndex)
    (pi : Vector Real) (j : nat) :
  length (snd (boundVector maxLen IV pi)) = length pi /\
  (j ∉ IV -> elt (snd (boundVector maxLen IV pi)) j = elt pi j).
Proof.
  unfold boundVector. destruct (real_leb _ _); cbn [snd].
  - split; reflexivity.
  - split; [apply scaleBy_length | apply scaleBy_outside].
Qed.

Lemma boundFriction_frame (mu : Real) (IN IF : list MultiplierIndex)
    (pi : Vector Real) (j : nat) :
  length (snd (boundFriction mu IN IF pi)) = length pi /\
  (j ∉ IF -> elt (snd (boundFriction mu IN IF pi)) j = elt pi j).
Proof.
  unfold boundFriction. destruct (real_leb _ _); cbn [snd].
  - split; reflexivity.
  - split; [apply scaleBy_length | apply scaleBy_outside].
Qed.

Section Bodies.
Variable participating : list MultiplierIndex.
Variable A : Matrix Real.
Variable rhs : Vector Real.
Variable sor : Real.
Variable v : Vector Real.
Variable j : nat.

Lemma uncondBody_keeps rt s :
  j ∉ UncondRT.m_mults rt -> keeps v j s ->
  keeps v j (snd (uncondBody participating A rhs sor rt s)).
Proof.
  unfold keeps, uncondBody. intros Hj [Hl He].
  destruct (doUpdates_frame (UncondRT.m_mults rt) A rhs sor
    (doRowSums participating (UncondRT.m_mults rt) A (sw_pi s)) (sw_pi s) j)
    as [Hl1 He1].
  destruct (doUpdates _ _ _ _ _ _) as [e p]. cbn [snd sw_pi] in *.
  split; [congruence | rewrite He1 by exact Hj; exact He].
Qed.

Lemma normalBody_keeps rt s :
  j ∉ normalWrites rt -> keeps v j s ->
  keeps v j (snd (normalBody participating A rhs sor rt s)).
Proof.
  unfold keeps, normalBody, normalWrites. intros Hj [Hl He].
  destruct (UniContactRT.m_type rt); try (split; assumption).
  assert (Hne : j <> UniContactRT.m_Nk rt).
  { intros ->. apply Hj, list_elem_of_here. }
  destruct (doUpdate_frame (UniContactRT.m_Nk rt) A rhs sor
    (doRowSum participating (UniContactRT.m_Nk rt) A (sw_pi s)) (sw_pi s) j)
    as [Hl1 He1].
  destruct (doUpdate _ _ _ _ _ _) as [e p].
  destruct (boundUnilateral _ _) as [c x]. cbn [snd sw_pi] in *.
  split; [rewrite length_insert; congruence|].
  rewrite elt_insert_ne by congruence. rewrite He1 by exact Hne. exact He.
Qed.

Lemma frictionBody_keeps rt s :
  j ∉ frictionWrites rt -> keeps v j s ->
  keeps v j (snd (frictionBody participating A rhs sor rt s)).
Proof.
  unfold keeps, frictionBody, frictionWrites. intros Hj [Hl He].
  destruct (_ || _); [split; assumption|].
  destruct (doUpdates_frame (UniContactRT.m_Fk rt) A rhs sor
    (doRowSums participating (UniContactRT.m_Fk rt) A (sw_pi s)) (sw_pi s) j)
    as [Hl1 He1].
  destruct (doUpdates _ _ _ _ _ _) as [e p]. cbn [snd] in Hl1, He1.
  match goal with
  | |- context [boundVector ?L ?I ?q] =>
      destruct (boundVector_frame L I q j) as [Hl2 He2];
      destruct (boundVector L I q) as [c x]
  end.
  cbn [snd sw_pi] in *.
  split; [congruence|].
  rewrite He2 by exact Hj. rewrite He1 by exact Hj. exact He.
Qed.

Lemma boundedBody_keeps rt s :
  j <> BoundedRT.m_ix rt -> keeps v j s ->
  keeps v j (snd (boundedBody participating A rhs sor rt s)).
Proof.
  unfold keeps, boundedBody. intros Hne [Hl He].
  destruct (doUpdate_frame (BoundedRT.m_ix rt) A rhs sor
    (doRowSum participating (BoundedRT.m_ix rt) A (sw_pi s)) (sw_pi s) j)
    as [Hl1 He1].
  destruct (doUpdate _ _ _ _ _ _) as [e p].
  destruct (boundScalar _ _ _) as [c x]. cbn [snd sw_pi] in *.
  split; [rewrite length_insert; congruence|].
  rewrite elt_insert_ne by congruence. rewrite He1 by exact Hne. exact He.
Qed.

Lemma stateLtdBody_keeps rt s :
  j ∉ StateLtdFrictionRT.m_Fk rt -> keeps v j s ->
  keeps v j (snd (stateLtdBody participating A rhs sor rt s)).
Proof.
  unfold keeps, stateLtdBody. intros Hj [Hl He].
  destruct (doUpdates_frame (StateLtdFrictionRT.m_Fk rt) A rhs sor
    (doRowSums participating (StateLtdFrictionRT.m_Fk rt) A (sw_pi s))
    (sw_pi s) j) as [Hl1 He1].
  destruct (doUpdates _ _ _ _ _ _) as [e p]. cbn [snd] in Hl1, He1.
  match goal with
  | |- context [boundVector ?L ?I ?q] =>
      destruct (boundVector_frame L I q j) as [Hl2 He2];
      destruct (boundVector L I q) as [c x]
  end.
  cbn [snd sw_pi] in *.
  split; [congruence|].
  rewrite He2 by exact Hj. rewrite He1 by exact Hj. exact He.
Qed.

Lemma consLtdBody_keeps rt s :
  j ∉ ConstraintLtdFrictionRT.m_Fk rt -> keeps v j s ->
  keeps v j (snd (consLtdBody participating A rhs sor rt s)).
Proof.
  unfold keeps, consLtdBody. intros Hj [Hl He].
  destruct (doUpdates_frame (ConstraintLtdFrictionRT.m_Fk rt) A rhs sor
    (doRowSums participating (ConstraintLtdFrictionRT.m_Fk rt) A (sw_pi s))
    (sw_pi s) j) as [Hl1 He1].
  destruct (doUpdates _ _ _ _ _ _) as [e p]. cbn [snd] in Hl1, He1.
  match goal with
  | |- context [boundFriction ?m ?N ?I ?q] =>
      destruct (boundFriction_frame m N I q j) as [Hl2 He2];
      destruct (boundFriction m N I q) as [c x]
  end.
  cbn [snd sw_pi] in *.
  split; [congruence|].
  rewrite He2 by exact Hj. rewrite He1 by exact Hj. exact He.
Qed.

End Bodies.

(** A loop keeps what each of its passes keeps, for the records it runs
    over. *)
Lemma forEach_keeps {RT : Type} (body : RT -> Sweep Real -> RT * Sweep Real)
    (idx : RT -> list MultiplierIndex) (v : Vector Real) (j : nat) :
  (forall rt s, j ∉ idx rt -> keeps v j s -> keeps v j (snd (body rt s))) ->
  forall l s, j ∉ concat (map idx l) -> keeps v j s ->
              keeps v j (snd (forEach body l s)).
Proof.
  intros Hbody l. induction l as [|rt l IH]; intros s Hj Hs; [exact Hs|].
  cbn [map concat] in Hj. apply not_elem_of_app in Hj as [Hj1 Hj2].
  cbn [forEach]. specialize (Hbody rt s Hj1 Hs).
  destruct (body rt s) as [rt' s1]. cbn [snd] in Hbody.
  specialize (IH s1 Hj2 Hbody). destruct (forEach body l s1). exact IH.
Qed.

(** What no pass of a loop changes in its record, the loop changes in no
    record. *)
Lemma forEach_map {RT B : Type} (body : RT -> Sweep Real -> RT * Sweep Real)
    (f : RT -> B) :
  (forall rt s, f (fst (body rt s)) = f rt) ->
  forall l s, map f (fst (forEach body l s)) = map f l.
Proof.
  intros Hbody l. induction l as [|rt l IH]; intros s; [reflexivity|].
  cbn [forEach]. specialize (Hbody rt s).
  destruct (body rt s) as [rt' s1]. specialize (IH s1).
  destruct (forEach body l s1). cbn [fst map] in *. congruence.
Qed.

End SweepFrames.

Section CallFrames.
Context {Real : Type} {ops : RealOps Real}.

Lemma map_factor {X B C : Type} (g : X -> B) (f : X -> C) :
  (forall x y, g x = g y -> f x = f y) ->
  forall l l', map g l' = map g l -> map f l' = map f l.
Proof.
  intros Hfg l. induction l as [|x l IH]; intros [|y l'] Heq;
    try discriminate Heq; [reflexivity|].
  cbn [map] in *. injection Heq as Hxy Hrest.
  rewrite (Hfg y x Hxy), (IH l' Hrest). reflexivity.
Qed.

Lemma concat_singletons {X : Type} (f : X -> MultiplierIndex) (l : list X) :
  concat (map (fun x => [f x]) l) = map f l.
Proof. induction l as [|x l IH]; [reflexivity|]. cbn. rewrite IH. reflexivity. Qed.

Lemma sameInputs_refl (cs : Constraints Real) : sameInputs cs cs.
Proof. repeat split. Qed.

Lemma sameInputs_trans (cs1 cs2 cs3 : Constraints Real) :
  sameInputs cs1 cs2 -> sameInputs cs2 cs3 -> sameInputs cs1 cs3.
Proof.
  unfold sameInputs.
  intros (H1 & H2 & H3 & H4 & H5 & H6) (G1 & G2 & G3 & G4 & G5 & G6).
  repeat split; congruence.
Qed.

Lemma normalWrites_inputs (x y : UniContactRT.t Real) :
  contactInputs x = contactInputs y -> normalWrites x = normalWrites y.
Proof.
  intros Hxy. unfold normalWrites.
  injection Hxy as -> _ -> _ _ _. reflexivity.
Qed.

Lemma frictionWrites_inputs (x y : UniContactRT.t Real) :
  contactInputs x = contactInputs y -> frictionWrites x = frictionWrites y.
Proof.
  intros Hxy. unfold frictionWrites, UniContactRT.hasFriction.
  injection Hxy as -> _ _ -> _ _. reflexivity.
Qed.

Lemma touched_sameInputs (cs cs' : Constraints Real) :
  sameInputs cs cs' -> touched cs' = touched cs.
Proof.
  unfold sameInputs, touched. intros (H1 & H2 & H3 & H4 & H5 & H6).
  rewrite H1.
  rewrite (map_factor contactInputs normalWrites normalWrites_inputs
             (uniContact cs) _ H2).
  rewrite (map_factor contactInputs frictionWrites frictionWrites_inputs
             (uniContact cs) _ H2).
  rewrite (map_factor boundedInputs BoundedRT.m_ix) with (l := bounded cs)
    by (try exact H4; intros x y Hxy; injection Hxy as -> _ _; reflexivity).
  rewrite (map_factor stateLtdInputs StateLtdFrictionRT.m_Fk)
    with (l := stateLtdFriction cs)
    by (try exact H6; intros x y Hxy; injection Hxy as -> _ _; reflexivity).
  rewrite (map_factor consLtdInputs ConstraintLtdFrictionRT.m_Fk)
    with (l := consLtdFriction cs)
    by (try exact H5; intros x y Hxy; injection Hxy as -> _ _; reflexivity).
  reflexivity.
Qed.

Section OneSweep.
Variable participating : list MultiplierIndex.
Variable A : Matrix Real.
Variable rhs : Vector Real.
Variable sor : Real.

Lemma uncondBody_record rt s :
  fst (uncondBody participating A rhs sor rt s) = rt.
Proof. unfold uncondBody. destruct (doUpdates _ _ _ _ _ _). reflexivity. Qed.

Lemma normalBody_inputs rt s :
  contactInputs (fst (normalBody participating A rhs sor rt s))
  = contactInputs rt.
Proof.
  unfold normalBody. destruct (UniContactRT.m_type rt) eqn:E; try reflexivity.
  destruct (doUpdate _ _ _ _ _ _), (boundUnilateral _ _). reflexivity.
Qed.

Lemma frictionBody_inputs rt s :
  contactInputs (fst (frictionBody participating A rhs sor rt s))
  = contactInputs rt.
Proof.
  unfold frictionBody. destruct (_ || _); [reflexivity|].
  destruct (doUpdates _ _ _ _ _ _), (boundVector _ _ _). reflexivity.
Qed.

Lemma boundedBody_inputs rt s :
  boundedInputs (fst (boundedBody participating A rhs sor rt s))
  = boundedInputs rt.
Proof.
  unfold boundedBody.
  destruct (doUpdate _ _ _ _ _ _), (boundScalar _ _ _). reflexivity.
Qed.

Lemma stateLtdBody_inputs rt s :
  stateLtdInputs (fst (stateLtdBody participating A rhs sor rt s))
  = stateLtdInputs rt.
Proof.
  unfold stateLtdBody.
  destruct (doUpdates _ _ _ _ _ _), (boundVector _ _ _). reflexivity.
Qed.

Lemma consLtdBody_inputs rt s :
  consLtdInputs (fst (consLtdBody participating A rhs sor rt s))
  = consLtdInputs rt.
Proof.
  unfold consLtdBody.
  destruct (doUpdates _ _ _ _ _ _), (boundFriction _ _ _ _). reflexivity.
Qed.

Lemma sweep_sameInputs (cs : Constraints Real) (pi : Vector Real) :
  sameInputs cs (fst (sweep participating A rhs sor cs pi)).
Proof.
  rewrite sweep_snd. unfold sameInputs.
  cbn [fst unconditional uniContact uniSpeed bounded consLtdFriction
       stateLtdFriction].
  split; [|split; [|split; [|split; [|split]]]].
  - rewrite <- (map_id (fst (forEach _ (unconditional cs) _))).
    rewrite <- (map_id (unconditional cs)) at 2.
    apply forEach_map. intros rt s. apply uncondBody_record.
  - rewrite (forEach_map _ contactInputs frictionBody_inputs).
    apply (forEach_map _ contactInputs normalBody_inputs).
  - reflexivity.
  - apply (forEach_map _ boundedInputs boundedBody_inputs).
  - apply (forEach_map _ consLtdInputs consLtdBody_inputs).
  - apply (forEach_map _ stateLtdInputs stateLtdBody_inputs).
Qed.

Lemma sweep_keeps (cs : Constraints Real) (pi : Vector Real) (j : nat) :
  j ∉ touched cs ->
  keeps pi j (snd (sweep participating A rhs sor cs pi)).
Proof.
  unfold touched. intros Hj.
  apply not_elem_of_app in Hj as [H1 Hj].
  apply not_elem_of_app in Hj as [H2 Hj].
  apply not_elem_of_app in Hj as [H3 Hj].
  apply not_elem_of_app in Hj as [H4 Hj].
  apply not_elem_of_app in Hj as [H5 H6].
  rewrite sweep_snd. cbn [snd].
  apply (forEach_keeps _ ConstraintLtdFrictionRT.m_Fk pi j
           (consLtdBody_keeps participating A rhs sor pi j)); [exact H6|].
  apply (forEach_keeps _ StateLtdFrictionRT.m_Fk pi j
           (stateLtdBody_keeps participating A rhs sor pi j)); [exact H5|].
  apply (forEach_keeps _ (fun rt => [BoundedRT.m_ix rt]) pi j).
  { intros rt s Hrt. apply boundedBody_keeps.
    intros ->. apply Hrt, list_elem_of_here. }
  { rewrite concat_singletons. exact H4. }
  apply (forEach_keeps _ frictionWrites pi j
           (frictionBody_keeps participating A rhs sor pi j)).
  { rewrite (forEach_map _ frictionWrites); [exact H3|].
    intros rt s. apply frictionWrites_inputs, normalBody_inputs. }
  apply (forEach_keeps _ normalWrites pi j
           (normalBody_keeps participating A rhs sor pi j)); [exact H2|].
  apply (forEach_keeps _ UncondRT.m_mults pi j
           (uncondBody_keeps participating A rhs sor pi j)); [exact H1|].
  split; reflexivity.
Qed.

End OneSweep.
End CallFrames.

(** ** Step 3 of a sweep: the friction of the unilateral contacts *)

Section FrictionStep.
Context {Real : Type} {ops : RealOps Real}.
Local Open Scope real_ops_scope.

(** C9, as the code has it, in any arithmetic.  Step 3 of a sweep runs over
    the contact records as step 2, the loop over the normals of all
    contacts, left them, and starts from the multipliers step 2 left.
    When it reaches a contact [rt], after the friction passes of the
    contacts [l1] before it, whose friction indices like its own do not
    include its normal index: if [rt] has friction and its normal is
    [Known] or [Participate], its friction multipliers are updated and
    capped with [mu*|normal|], where the normal is [m_knownPi] for a
    [Known] normal and, for a participating one, the value of [pi[Nk]] that
    step 2 of this same sweep left; the status is recorded and the error
    counted as enforced exactly when it is [Rolling].  A contact whose
    normal is [Observe], like one without friction, is passed over: its
    record, [pi] and both sums stay as they are.  The record the sweep
    returns for the contact is the one this pass leaves. *)
Theorem sweep_friction_after_normals
    (participating : list MultiplierIndex) (A : Matrix Real)
    (rhs : Vector Real) (sor : Real) (cs : Constraints Real)
    (pi : Vector Real) (l1 l2 : list (UniContactRT.t Real))
    (rt : UniContactRT.t Real) :
  let afterUncond :=
    snd (forEach (uncondBody participating A rhs sor) (unconditional cs)
           {| sw_pi := pi; sum2all := real_zero; sum2enf := real_zero |}) in
  let normals :=
    forEach (normalBody participating A rhs sor) (uniContact cs) afterUncond in
  let s := snd (forEach (frictionBody participating A rhs sor) l1
                  (snd normals)) in
  let normal := match UniContactRT.m_type rt with
                | Known => UniContactRT.m_knownPi rt
                | _ => elt (sw_pi (snd normals)) (UniContactRT.m_Nk rt)
                end in
  fst normals = l1 ++ rt :: l2 ->
  UniContactRT.m_Nk rt ∉ concat (map frictionWrites l1) ->
  UniContactRT.m_Nk rt ∉ UniContactRT.m_Fk rt ->
  map contactInputs (fst normals) = map contactInputs (uniContact cs) /\
  uniContact (fst (sweep participating A rhs sor cs pi)) !! length l1
  = Some (fst (frictionBody participating A rhs sor rt s)) /\
  (UniContactRT.hasFriction rt = true ->
   UniContactRT.m_type rt <> Observe ->
   frictionBody participating A rhs sor rt s
   = frictionStep_with_normal participating A rhs sor normal rt s) /\
  (UniContactRT.m_type rt = Observe \/ UniContactRT.hasFriction rt = false ->
   frictionBody participating A rhs sor rt s = (rt, s)).
Proof.
  intros afterUncond normals s normal Hsplit HNk HNkF.
  split; [apply forEach_map, normalBody_inputs|].
  split; [|split].
  - rewrite sweep_snd. cbn [fst uniContact].
    change (forEach (normalBody participating A rhs sor) (uniContact cs) _)
      with normals.
    rewrite Hsplit, forEach_app. cbn [fst].
    change (snd (forEach (frictionBody participating A rhs sor) l1
                   (snd normals))) with s.
    cbn [forEach].
    destruct (frictionBody participating A rhs sor rt s) as [rt' s1].
    destruct (forEach (frictionBody participating A rhs sor) l2 s1)
      as [l2' s2].
    cbn [fst]. apply list_lookup_middle. symmetry. apply forEach_length.
  - intros Hf Hty.
    assert (Hkeep : elt (sw_pi s) (UniContactRT.m_Nk rt)
                    = elt (sw_pi (snd normals)) (UniContactRT.m_Nk rt)).
    { apply (forEach_keeps (frictionBody participating A rhs sor)
               frictionWrites (sw_pi (snd normals)) (UniContactRT.m_Nk rt)
               (frictionBody_keeps participating A rhs sor
                  (sw_pi (snd normals)) (UniContactRT.m_Nk rt))
               l1 (snd normals) HNk).
      split; reflexivity. }
    destruct (doUpdates_frame (UniContactRT.m_Fk rt) A rhs sor
                (doRowSums participating (UniContactRT.m_Fk rt) A (sw_pi s))
                (sw_pi s) (UniContactRT.m_Nk rt)) as [_ Hupd].
    specialize (Hupd HNkF).
    unfold frictionBody, frictionStep_with_normal. rewrite Hf.
    subst normal.
    destruct (doUpdates _ _ _ _ _ _) as [e p]. cbn [snd] in Hupd.
    destruct (UniContactRT.m_type rt); [congruence | reflexivity |].
    cbn [negb orb]. rewrite Hupd, Hkeep. reflexivity.
  - unfold frictionBody. intros [->| ->]; [reflexivity|].
    rewrite orb_true_r. reflexivity.
Qed.

End FrictionStep.

Section CallLevel.
Context {Real : Type} {ops : RealOps Real}.

Lemma fresh_index (l : list nat) : exists j, j ∉ l.
Proof.
  assert (Hb : forall x, x ∈ l -> x <= foldr Nat.max 0 l).
  { induction l as [|y l IH]; intros x Hx.
    - apply elem_of_nil in Hx. destruct Hx.
    - cbn [foldr]. apply elem_of_cons in Hx as [->|Hx]; [lia|].
      specialize (IH x Hx). lia. }
  exists (S (foldr Nat.max 0 l)). intros Hin. apply Hb in Hin. lia.
Qed.

Section OneCall.
Variable self : PGSImpulseSolver Real.
Variable phase : nat.
Variable participating : list MultiplierIndex.
Variable A : Matrix Real.
Variable rhs : Vector Real.

Lemma iteration_frame (s : LoopState Real) :
  sameInputs (cur_cons s)
    (cur_cons (iteration self phase participating A rhs s)) /\
  length (cur_pi (iteration self phase participating A rhs s))
  = length (cur_pi s) /\
  forall j, j ∉ touched (cur_cons s) ->
    elt (cur_pi (iteration self phase participating A rhs s)) j
    = elt (cur_pi s) j.
Proof.
  pose proof (sweep_sameInputs participating A rhs (cur_sor s)
                (cur_cons s) (cur_pi s)) as Hin.
  pose proof (sweep_keeps participating A rhs (cur_sor s)
                (cur_cons s) (cur_pi s)) as Hk.
  unfold iteration.
  destruct (sweep _ _ _ _ _ _) as [cs sw]. cbn [fst snd] in Hin, Hk.
  cbn [cur_cons cur_pi].
  split; [exact Hin|]. split.
  - destruct (fresh_index (touched (cur_cons s))) as [j Hj].
    apply (Hk j Hj).
  - intros j Hj. apply (Hk j Hj).
Qed.

Lemma iterate_frame (n : nat) (s : LoopState Real) :
  sameInputs (cur_cons s)
    (cur_cons (iterate self phase participating A rhs n s)) /\
  length (cur_pi (iterate self phase participating A rhs n s))
  = length (cur_pi s) /\
  forall j, j ∉ touched (cur_cons s) ->
    elt (cur_pi (iterate self phase participating A rhs n s)) j
    = elt (cur_pi s) j.
Proof.
  revert s. induction n as [|n IH]; intros s.
  - split; [apply sameInputs_refl|]. split; reflexivity.
  - destruct (iteration_frame s) as (Hin & Hlen & Hfr).
    cbn [iterate].
    destruct (converged (iteration self phase participating A rhs s)).
    + split; [exact Hin|]. split; assumption.
    + destruct (IH (next (iteration self phase participating A rhs s)))
        as (Hin' & Hlen' & Hfr').
      cbn [next cur_cons cur_pi] in Hin', Hlen', Hfr'.
      split; [exact (sameInputs_trans _ _ _ Hin Hin')|].
      split; [congruence|].
      intros j Hj. rewrite Hfr'; [apply Hfr, Hj|].
      rewrite (touched_sameInputs _ _ Hin). exact Hj.
Qed.

Lemma iterate_nIters (n : nat) (s : LoopState Real) :
  converged s = false ->
  (nIters s phase
   <= nIters (iterate self phase participating A rhs n s) phase
   <= nIters s phase + Z.of_nat n)%Z /\
  forall q, q <> phase ->
    nIters (iterate self phase participating A rhs n s) q = nIters s q.
Proof.
  intros Hs.
  destruct (iterate_cases self phase participating A rhs n s Hs)
    as [(_ & k & Hk & _ & _ & Hst) | (_ & _ & Hst)].
  - change (nIters (iterate self phase participating A rhs n s))
      with (nIters (next (iterate self phase participating A rhs n s))).
    rewrite Hst. split.
    + rewrite unbroken_nIters. lia.
    + intros q Hq. apply unbroken_nIters_other, Hq.
  - rewrite Hst. split.
    + rewrite unbroken_nIters. lia.
    + intros q Hq. apply unbroken_nIters_other, Hq.
Qed.

End OneCall.

(** [solve] assigns to [pi] only at the indices its loops run over: the
    multipliers of the unconditional constraints, the normals of the
    participating contacts, the friction multipliers of the contacts it
    does not pass over, the bounded scalars and the two kinds of friction
    groups.  Every other entry of [pi], among them the multipliers of the
    unilateral speed constraints, comes back as it went in, and [pi] keeps
    its length. *)
Theorem solve_writes_touched_only
    (self : PGSImpulseSolver Real) (phase : nat)
    (participating : list MultiplierIndex) (A : Matrix Real)
    (D rhs pi : Vector Real) (cs : Constraints Real) :
  length (out_pi (solve self phase participating A D rhs pi cs)) = length pi /\
  forall j, j ∉ touched cs ->
    elt (out_pi (solve self phase participating A D rhs pi cs)) j = elt pi j.
Proof.
  unfold solve.
  destruct (decide (participating_count participating = 0%Z));
    cbn [out_pi]; [split; reflexivity|].
  destruct (iterate_frame self phase participating A rhs
              (Z.to_nat (m_maxIters self)) (initial self pi cs))
    as (_ & Hlen & Hfr).
  split; [exact Hlen | exact Hfr].
Qed.

(** [solve] writes to the status members of the records and to nothing
    else in them: the arrays keep their lengths and order, the
    unconditional and unilateral speed records come back as they were, and
    every other record comes back with the index sets, bounds, mode, sign
    and friction data it had. *)
Theorem solve_writes_status_only
    (self : PGSImpulseSolver Real) (phase : nat)
    (participating : list MultiplierIndex) (A : Matrix Real)
    (D rhs pi : Vector Real) (cs : Constraints Real) :
  let cs' := out_cons (solve self phase participating A D rhs pi cs) in
  unconditional cs' = unconditional cs /\
  uniSpeed cs' = uniSpeed cs /\
  map contactInputs (uniContact cs') = map contactInputs (uniContact cs) /\
  map boundedInputs (bounded cs') = map boundedInputs (bounded cs) /\
  map stateLtdInputs (stateLtdFriction cs')
  = map stateLtdInputs (stateLtdFriction cs) /\
  map consLtdInputs (consLtdFriction cs')
  = map consLtdInputs (consLtdFriction cs) /\
  touched cs' = touched cs.
Proof.
  cbv zeta.
  assert (Hin : sameInputs cs
                  (out_cons (solve self phase participating A D rhs pi cs))).
  { unfold solve.
    destruct (decide (participating_count participating = 0%Z));
      cbn [out_cons]; [apply sameInputs_refl|].
    apply (iterate_frame self phase participating A rhs
             (Z.to_nat (m_maxIters self)) (initial self pi cs)). }
  pose proof (touched_sameInputs _ _ Hin) as Ht.
  destruct Hin as (H1 & H2 & H3 & H4 & H5 & H6).
  repeat split; assumption.
Qed.

(** The counters of a solver are kept per phase and only grow: a call
    adds one to the solve count of its phase, between 0 and [m_maxIters]
    to its iteration count and at most one to its failure count; the
    counters of every other phase and the configuration of the solver are
    left alone. *)
Theorem solve_counters
    (self : PGSImpulseSolver Real) (phase : nat)
    (participating : list MultiplierIndex) (A : Matrix Real)
    (D rhs pi : Vector Real) (cs : Constraints Real) :
  let self' := out_self (solve self phase participating A D rhs pi cs) in
  m_nSolves self' phase = (m_nSolves self phase + 1)%Z /\
  (m_nIters self phase <= m_nIters self' phase
   <= m_nIters self phase + Z.max 0 (m_maxIters self))%Z /\
  (m_nFail self phase <= m_nFail self' phase <= m_nFail self phase + 1)%Z /\
  (forall q, q <> phase ->
     m_nSolves self' q = m_nSolves self q /\
     m_nIters self' q = m_nIters self q /\
     m_nFail self' q = m_nFail self q) /\
  m_maxIters self' = m_maxIters self /\
  m_convergenceTol self' = m_convergenceTol self /\
  m_SOR self' = m_SOR self.
Proof.
  cbv zeta. unfold solve.
  destruct (decide (participating_count participating = 0%Z));
    cbn [out_self m_nSolves m_nIters m_nFail m_maxIters m_convergenceTol m_SOR].
  - unfold incr. rewrite decide_True by reflexivity.
    split; [reflexivity|]. split; [lia|]. split; [lia|].
    split; [|repeat split].
    intros q Hq. rewrite decide_False by exact Hq. repeat split.
  - destruct (iterate_nIters self phase participating A rhs
                (Z.to_nat (m_maxIters self)) (initial self pi cs) eq_refl)
      as [Hit Hother].
    cbn [initial nIters] in Hit, Hother.
    unfold incr. rewrite decide_True by reflexivity.
    split; [reflexivity|]. split; [lia|].
    split.
    { destruct (converged _); [lia|].
      rewrite decide_True by reflexivity. lia. }
    split; [|repeat split].
    intros q Hq. rewrite decide_False by exact Hq.
    split; [reflexivity|]. split; [apply Hother, Hq|].
    destruct (converged _); [reflexivity|].
    rewrite decide_False by exact Hq. reflexivity.
Qed.

(** With a non-empty participating set and an iteration cap of zero or
    less, [solve] makes no sweep and reports failure: [pi], the records
    and the iteration count are untouched and the failure count of the
    phase goes up by one. *)
Theorem solve_without_iterations
    (self : PGSImpulseSolver Real) (phase : nat)
    (participating : list MultiplierIndex) (A : Matrix Real)
    (D rhs pi : Vector Real) (cs : Constraints Real) :
  participating <> [] ->
  (m_maxIters self <= 0)%Z ->
  let out := solve self phase participating A D rhs pi cs in
  result out = false /\
  out_pi out = pi /\
  out_cons out = cs /\
  m_nIters (out_self out) = m_nIters self /\
  m_nFail (out_self out) phase = (m_nFail self phase + 1)%Z.
Proof.
  intros Hne Hmax out.
  destruct (solve_nonempty self phase participating A D rhs pi cs Hne)
    as (Hres & Hpi & Hcs & Hit & Hfail).
  fold out in Hres, Hpi, Hcs, Hit, Hfail.
  replace (Z.to_nat (m_maxIters self)) with 0 in * by lia.
  cbn [iterate initial converged cur_pi cur_cons nIters] in *.
  split; [exact Hres|]. split; [exact Hpi|]. split; [exact Hcs|].
  split; [exact Hit|].
  rewrite Hfail. unfold incr. rewrite decide_True by reflexivity. reflexivity.
Qed.

End CallLevel.

(** ** The two-sided bound, in exact arithmetic *)

Section IdealPrimitives.
Local Open Scope R_scope.

(** [boundScalar] with [lb <= ub] returns the point of [[lb, ub]] nearest
    to [pi]: the result lies within the bounds, it is [max(lb, min(pi, ub))],
    no point of the interval is closer to [pi], and the status tells which
    side, if any, was hit. *)
Theorem boundScalar_clamps (lb x ub : R) :
  lb <= ub ->
  let out := boundScalar lb x ub in
  lb <= snd out <= ub /\
  snd out = Rmax lb (Rmin x ub) /\
  (forall y, lb <= y <= ub -> Rabs (snd out - x) <= Rabs (y - x)) /\
  (fst out = Engaged <-> lb <= x <= ub) /\
  (fst out = SlipHigh <-> ub < x) /\
  (fst out = SlipLow <-> x < lb) /\
  (snd out = x <-> fst out = Engaged).
Proof.
  intros Hb out. subst out. unfold boundScalar. ideal_ops.
  destruct (Rltb ub x) eqn:E1; [apply Rltb_true in E1|apply Rltb_false in E1].
  - cbn [fst snd]. split; [lra|]. split.
    { rewrite Rmin_right by lra. rewrite Rmax_right by lra. reflexivity. }
    split.
    { intros y Hy. rewrite !Rabs_left1 by lra. lra. }
    repeat split; intros; try discriminate; try lra.
  - destruct (Rltb x lb) eqn:E2;
      [apply Rltb_true in E2|apply Rltb_false in E2]; cbn [fst snd].
    + split; [lra|]. split.
      { rewrite Rmin_left by lra. rewrite Rmax_left by lra. reflexivity. }
      split.
      { intros y Hy. rewrite !Rabs_right by lra. lra. }
      repeat split; intros; try discriminate; try lra.
    + split; [lra|]. split.
      { rewrite Rmin_left by lra. rewrite Rmax_right by lra. reflexivity. }
      split.
      { intros y Hy. replace (x - x) with 0 by lra. rewrite Rabs_R0.
        apply Rabs_pos. }
      repeat split; intros; try discriminate; try lra.
Qed.

End IdealPrimitives.

(** ** The partitions after their pass, in exact arithmetic *)

Section IdealBodies.
Local Open Scope R_scope.
Variable participating : list MultiplierIndex.
Variable A : Matrix R.
Variable rhs : Vector R.
Variable sor : R.

(** After the pass of the normal loop over a participating contact whose
    normal multiplier lies inside [pi], the sign condition
    [sign * pi[Nk] <= 0] holds.  The contact is reported [UniOff] exactly
    when the updated multiplier violated it; the multiplier is then 0 and
    its error stays out of the enforced sum.  Otherwise the updated
    multiplier stands. *)
Theorem normalBody_enforces_sign (rt : UniContactRT.t R) (s : Sweep R) :
  UniContactRT.m_type rt = Participate ->
  (UniContactRT.m_Nk rt < length (sw_pi s))%nat ->
  let Nk := UniContactRT.m_Nk rt in
  let updated :=
    elt (snd (doUpdate Nk A rhs sor (doRowSum participating Nk A (sw_pi s))
                (sw_pi s))) Nk in
  let out := normalBody participating A rhs sor rt s in
  UniContactRT.m_sign rt * elt (sw_pi (snd out)) Nk <= 0 /\
  (UniContactRT.m_contactCond (fst out) = UniOff
   <-> 0 < UniContactRT.m_sign rt * updated) /\
  (UniContactRT.m_contactCond (fst out) = UniOff ->
   elt (sw_pi (snd out)) Nk = 0 /\ sum2enf (snd out) = sum2enf s) /\
  (UniContactRT.m_contactCond (fst out) = UniActive ->
   elt (sw_pi (snd out)) Nk = updated).
Proof.
  intros Hty Hlen Nk updated out. subst out updated. unfold normalBody.
  rewrite Hty. fold Nk.
  destruct (doUpdate_frame Nk A rhs sor
              (doRowSum participating Nk A (sw_pi s)) (sw_pi s) Nk)
    as [Hl _].
  destruct (doUpdate Nk A rhs sor (doRowSum participating Nk A (sw_pi s))
              (sw_pi s)) as [e p].
  cbn [snd] in Hl |- *. unfold boundUnilateral. ideal_ops.
  assert (Hp : (Nk < length p)%nat) by (unfold Nk in *; lia).
  destruct (Rltb 0 (UniContactRT.m_sign rt * elt p Nk)) eqn:E;
    [apply Rltb_true in E|apply Rltb_false in E];
    cbn [fst snd sw_pi sum2enf UniContactRT.set_contactCond
         UniContactRT.m_contactCond];
    rewrite elt_insert_eq by exact Hp.
  - split; [lra|]. split; [tauto|]. split; [|discriminate].
    intros _. split; [reflexivity|].
    rewrite decide_False by discriminate. reflexivity.
  - split; [lra|]. split; [split; [discriminate|lra]|].
    split; [discriminate | reflexivity].
Qed.

(** After the pass of the bounded loop over a constraint with
    [lb <= ub] whose multiplier lies inside [pi], the multiplier is within
    its bounds; it is reported [Engaged] exactly when the updated value
    already was, and then the updated value stands. *)
Theorem boundedBody_within_bounds (rt : BoundedRT.t R) (s : Sweep R) :
  BoundedRT.m_lb rt <= BoundedRT.m_ub rt ->
  (BoundedRT.m_ix rt < length (sw_pi s))%nat ->
  let rx := BoundedRT.m_ix rt in
  let updated :=
    elt (snd (doUpdate rx A rhs sor (doRowSum participating rx A (sw_pi s))
                (sw_pi s))) rx in
  let out := boundedBody participating A rhs sor rt s in
  BoundedRT.m_lb rt <= elt (sw_pi (snd out)) rx <= BoundedRT.m_ub rt /\
  (BoundedRT.m_boundedCond (fst out) = Engaged
   <-> BoundedRT.m_lb rt <= updated <= BoundedRT.m_ub rt) /\
  (BoundedRT.m_boundedCond (fst out) = Engaged ->
   elt (sw_pi (snd out)) rx = updated) /\
  (BoundedRT.m_boundedCond (fst out) <> Engaged ->
   sum2enf (snd out) = sum2enf s).
Proof.
  intros Hb Hlen rx updated out. subst out updated. unfold boundedBody.
  fold rx.
  destruct (doUpdate_frame rx A rhs sor
              (doRowSum participating rx A (sw_pi s)) (sw_pi s) rx)
    as [Hl _].
  destruct (doUpdate rx A rhs sor (doRowSum participating rx A (sw_pi s))
              (sw_pi s)) as [e p].
  cbn [snd] in Hl |- *. unfold boundScalar. ideal_ops.
  assert (Hp : (rx < length p)%nat) by (unfold rx in *; lia).
  destruct (Rltb (BoundedRT.m_ub rt) (elt p rx)) eqn:E1;
    [apply Rltb_true in E1|apply Rltb_false in E1].
  - cbn [fst snd sw_pi sum2enf BoundedRT.set_boundedCond
         BoundedRT.m_boundedCond].
    rewrite elt_insert_eq by exact Hp.
    split; [lra|]. split; [split; [discriminate|lra]|].
    split; [discriminate|]. intros _.
    rewrite decide_False by discriminate. reflexivity.
  - destruct (Rltb (elt p rx) (BoundedRT.m_lb rt)) eqn:E2;
      [apply Rltb_true in E2|apply Rltb_false in E2];
      cbn [fst snd sw_pi sum2enf BoundedRT.set_boundedCond
           BoundedRT.m_boundedCond];
      rewrite elt_insert_eq by exact Hp.
    + split; [lra|]. split; [split; [discriminate|lra]|].
      split; [discriminate|]. intros _.
      rewrite decide_False by discriminate. reflexivity.
    + split; [lra|]. split; [split; [lra|reflexivity]|].
      split; [reflexivity|]. intros H. destruct H. reflexivity.
Qed.

End IdealBodies.

(** ** Whole calls, in exact arithmetic *)

Section IdealCalls.
Local Open Scope R_scope.

Lemma forEach_invariant_in {RT : Type} (body : RT -> Sweep R -> RT * Sweep R)
    (P : Sweep R -> Prop) (l : list RT) :
  (forall rt s, rt ∈ l -> P s -> P (snd (body rt s))) ->
  forall s, P s -> P (snd (forEach body l s)).
Proof.
  induction l as [|rt l IH]; intros Hbody s Hs; cbn [forEach]; [exact Hs|].
  pose proof (Hbody rt s (list_elem_of_here _ _) Hs) as H1.
  destruct (body rt s) as [rt' s1]. cbn [snd] in H1.
  assert (H2 : P (snd (forEach body l s1))).
  { apply IH; [|exact H1].
    intros rt0 s0 Hin. apply Hbody, list_elem_of_further, Hin. }
  destruct (forEach body l s1). exact H2.
Qed.

Lemma doRowSums_elt (columns rows : list MultiplierIndex) (A : Matrix R)
    (pi : Vector R) (i : nat) :
  (i < length rows)%nat ->
  elt (doRowSums columns rows A pi) i = doRowSum columns (ix rows i) A pi.
Proof.
  intros Hi. rewrite doRowSums_rowwise.
  unfold elt, ix, MultiplierIndex in *. rewrite list_lookup_fmap.
  destruct (rows !! i) as [r|] eqn:E; [reflexivity|].
  apply lookup_ge_None_1 in E. lia.
Qed.

(** Rows whose equations hold are left alone by [doUpdates], with error
    0. *)
Lemma doUpdates_solved (columns rows : list MultiplierIndex) (A : Matrix R)
    (rhs : Vector R) (sor : R) (pi : Vector R) :
  (forall row, row ∈ rows -> doRowSum columns row A pi = elt rhs row) ->
  fst (doUpdates rows A rhs sor (doRowSums columns rows A pi) pi) = 0 /\
  snd (doUpdates rows A rhs sor (doRowSums columns rows A pi) pi) = pi.
Proof.
  intros Hsolved. rewrite doUpdates_rowwise.
  assert (Hgen : forall l (acc : R * Vector R),
    (forall i, i ∈ l -> (i < length rows)%nat) ->
    fst acc = 0 -> snd acc = pi ->
    let out := fold_left
      (fun acc i =>
         (real_add (fst acc)
            (fst (doUpdate (ix rows i) A rhs sor
                    (elt (doRowSums columns rows A pi) i) (snd acc))),
          snd (doUpdate (ix rows i) A rhs sor
                 (elt (doRowSums columns rows A pi) i) (snd acc))))
      l acc in
    fst out = 0 /\ snd out = pi).
  { induction l as [|i l IH]; intros acc Hl H0 Hpi; [split; assumption|].
    cbn [fold_left]. cbv zeta in IH. apply IH.
    - intros k Hk. apply Hl, list_elem_of_further, Hk.
    - cbn [fst]. rewrite H0, doRowSums_elt by apply Hl, list_elem_of_here.
      rewrite Hsolved by apply ix_elem, Hl, list_elem_of_here.
      unfold doUpdate, square. cbn [fst]. ideal_ops. lra.
    - cbn [snd]. rewrite Hpi, doRowSums_elt by apply Hl, list_elem_of_here.
      rewrite Hsolved by apply ix_elem, Hl, list_elem_of_here.
      unfold doUpdate. cbn [snd].
      destruct (real_ltb real_zero _); [|reflexivity].
      ideal_ops.
      replace (elt pi (ix rows i)
               + sor * (elt rhs (ix rows i) - elt rhs (ix rows i))
                 / entry A (ix rows i) (ix rows i))
        with (elt pi (ix rows i)) by (unfold Rdiv; lra).
      apply insert_elt_same. }
  apply Hgen; [|reflexivity..].
  intros i Hi. apply seq_bound, Hi.
Qed.

(** A solution is a fixed point.  When the constraints to solve are
    unconditional ones and [pi] satisfies each of their rows over the
    participating columns, a call with a positive tolerance and at least
    one iteration allowed returns [true] after one sweep and leaves [pi]
    as it is. *)
Theorem solve_keeps_a_solution
    (self : PGSImpulseSolver R) (phase : nat)
    (participating : list MultiplierIndex) (A : Matrix R)
    (D rhs pi : Vector R) (cs : Constraints R) :
  participating <> [] ->
  (1 <= m_maxIters self)%Z ->
  0 < m_convergenceTol self ->
  uniContact cs = [] -> bounded cs = [] ->
  stateLtdFriction cs = [] -> consLtdFriction cs = [] ->
  (forall rt row, rt ∈ unconditional cs -> row ∈ UncondRT.m_mults rt ->
     doRowSum participating row A pi = elt rhs row) ->
  let out := solve self phase participating A D rhs pi cs in
  result out = true /\
  out_pi out = pi /\
  m_nIters (out_self out) phase = (m_nIters self phase + 1)%Z /\
  m_nFail (out_self out) = m_nFail self.
Proof.
  intros Hne Hmax Htol Hc Hb Hs Hl Hsolved out.
  destruct (solve_nonempty self phase participating A D rhs pi cs Hne)
    as (Hres & Hpi & _ & Hit & Hfail).
  fold out in Hres, Hpi, Hit, Hfail.
  (* the sweep from [pi] *)
  assert (Hsw : let sw := snd (sweep participating A rhs (m_SOR self) cs pi) in
                sw_pi sw = pi /\ sum2all sw = 0 /\ sum2enf sw = 0).
  { rewrite sweep_snd. rewrite Hc, Hb, Hs, Hl. cbn [forEach fst snd].
    apply (forEach_invariant_in _
             (fun s => sw_pi s = pi /\ sum2all s = 0 /\ sum2enf s = 0)).
    - intros rt s Hrt (Hp & Ha & He). unfold uncondBody. rewrite Hp.
      destruct (doUpdates_solved participating (UncondRT.m_mults rt) A rhs
                  (m_SOR self) pi (fun row => Hsolved rt row Hrt))
        as [He0 Hp0].
      destruct (doUpdates _ _ _ _ _ _) as [e p].
      cbn [fst snd sw_pi sum2all sum2enf] in *. ideal_ops.
      subst e p. rewrite Ha, He. repeat split; lra.
    - repeat split. }
  assert (Hconv : converged (iteration self phase participating A rhs
                               (initial self pi cs)) = true
                  /\ cur_pi (iteration self phase participating A rhs
                               (initial self pi cs)) = pi).
  { unfold iteration. cbn [initial cur_sor cur_cons cur_pi].
    destruct (sweep participating A rhs (m_SOR self) cs pi) as [cs' sw].
    cbn [snd] in Hsw. destruct Hsw as (Hp & _ & He).
    cbn [converged cur_pi]. split; [|exact Hp].
    rewrite He. ideal_ops. apply Rltb_true.
    unfold Rdiv. rewrite Rmult_0_l, sqrt_0. exact Htol. }
  destruct Hconv as [Hconv Hpi1].
  destruct (Z.to_nat (m_maxIters self)) as [|n] eqn:Hn; [lia|].
  cbn [iterate] in Hres, Hpi, Hit, Hfail.
  rewrite !Hconv in Hres, Hfail. rewrite Hconv in Hpi, Hit.
  split; [exact Hres|]. split; [congruence|].
  split; [|exact Hfail].
  rewrite Hit, iteration_nIters. cbn [initial nIters]. unfold incr.
  rewrite decide_True by reflexivity. reflexivity.
Qed.

(** The convergence test is strict and the measured residual is a square
    root: with a tolerance of zero or less no call with a non-empty
    participating set converges.  It makes all its [m_maxIters] sweeps,
    returns [false] and counts a failure. *)
Theorem solve_needs_positive_tolerance
    (self : PGSImpulseSolver R) (phase : nat)
    (participating : list MultiplierIndex) (A : Matrix R)
    (D rhs pi : Vector R) (cs : Constraints R) :
  participating <> [] ->
  m_convergenceTol self <= 0 ->
  let out := solve self phase participating A D rhs pi cs in
  result out = false /\
  m_nIters (out_self out) phase
  = (m_nIters self phase + Z.max 0 (m_maxIters self))%Z /\
  m_nFail (out_self out) phase = (m_nFail self phase + 1)%Z.
Proof.
  intros Hne Htol out.
  destruct (solve_nonempty self phase participating A D rhs pi cs Hne)
    as (Hres & _ & _ & Hit & Hfail).
  fold out in Hres, Hit, Hfail.
  assert (Hnever : forall k,
    converged (unbroken self phase participating A rhs (S k)
                 (initial self pi cs)) = false).
  { intros k. rewrite unbroken_converged. unfold rmsEnforced. ideal_ops.
    apply Rltb_false.
    pose proof (sqrt_pos
      (sum2enf (snd (sweep participating A rhs
         (cur_sor (unbroken self phase participating A rhs k
                     (initial self pi cs)))
         (cur_cons (unbroken self phase participating A rhs k
                      (initial self pi cs)))
         (cur_pi (unbroken self phase participating A rhs k
                    (initial self pi cs)))))
       / IZR (participating_count participating))).
    lra. }
  destruct (iterate_cases self phase participating A rhs
              (Z.to_nat (m_maxIters self)) (initial self pi cs) eq_refl)
    as [(_ & k & Hk & Hck & _) | (Hconv & _ & Hst)].
  - destruct k as [|k]; [lia|]. rewrite Hnever in Hck. discriminate.
  - rewrite Hconv in Hres, Hfail. split; [exact Hres|]. split.
    + rewrite Hit, Hst, unbroken_nIters. cbn [initial nIters]. lia.
    + rewrite Hfail. unfold incr. rewrite decide_True by reflexivity.
      reflexivity.
Qed.

End IdealCalls.

(** ** Rigid body nodes *)

Section Nodes.
Import RigidBodyNode.

(** [getChild] guards the upper end of the child list only.  For an index
    from 0 up it never reads outside the list: below [getNChildren] it
    returns the child registered at that position, from [getNChildren] on
    the null pointer.  A negative index passes the guard and reads outside
    the list. *)
Theorem getChild_bounds (n : RigidBodyNode.t) (i : Z) :
  ((0 <= i < getNChildren n)%Z ->
   exists c, children n !! Z.to_nat i = Some c /\ getChild n i = Some c) /\
  ((getNChildren n <= i)%Z -> getChild n i = Some None) /\
  ((i < 0)%Z -> getChild n i = None).
Proof.
  unfold getChild, getNChildren. split; [|split].
  - intros [H0 Hi].
    destruct (children n !! Z.to_nat i) as [c|] eqn:E.
    + exists c. split; [reflexivity|].
      rewrite (proj2 (Z.ltb_lt _ _) Hi), (proj2 (Z.ltb_ge _ _) H0).
      reflexivity.
    + apply lookup_ge_None_1 in E. lia.
  - intros Hi. rewrite (proj2 (Z.ltb_ge _ _) Hi). reflexivity.
  - intros Hi.
    rewrite (proj2 (Z.ltb_lt i (Z.of_nat (length (children n)))))
      by lia.
    rewrite (proj2 (Z.ltb_lt _ _) Hi). reflexivity.
Qed.

(** The per-body pools are indexed by [nodeNum].  For a node whose number
    lies inside a pool, what is assigned through [toB] is what [fromB]
    reads back, the pool keeps its length, and the entry of a node with
    another number is untouched.  A node as constructed has the number -1
    and no entry in any pool until [setNodeNum] gives it one. *)
Theorem toB_fromB_round_trip {T : Type} (n m : RigidBodyNode.t)
    (x : list T) (v : T) :
  (0 <= nodeNum n < Z.of_nat (length x))%Z ->
  (exists x', toB_assign n x v = Some x' /\
     length x' = length x /\
     fromB n x' = Some v /\
     (nodeNum m <> nodeNum n -> fromB m x' = fromB m x)) /\
  fromB construct x = None /\
  fromB (setNodeNum (nodeNum n) construct) x = fromB n x.
Proof.
  intros [H0 Hn]. split; [|split; reflexivity].
  unfold toB_assign, fromB.
  rewrite (proj2 (Z.ltb_ge _ _) H0).
  rewrite decide_True by lia.
  eexists. split; [reflexivity|].
  split; [apply length_insert|]. split.
  - apply list_lookup_insert_eq. lia.
  - intros Hne. destruct (nodeNum m <? 0)%Z eqn:E; [reflexivity|].
    apply Z.ltb_ge in E. apply list_lookup_insert_ne. lia.
Qed.

End Nodes.

(** ** The further properties at sample inputs *)

Ltac not_in :=
  let H := fresh "H" in
  intros H;
  repeat (apply elem_of_cons in H as [H|H]; [discriminate H|]);
  apply elem_of_nil in H; exact H.

Section MoreSamples.

Lemma rowSums_read_given_columns_only_witness :
  (forall c, c ∈ [0] -> elt [1; 2]%float c = elt [1; 3]%float c) /\
  doRowSum [0] 0 [[1; 1]]%float [1; 2]%float
  = doRowSum [0] 0 [[1; 1]]%float [1; 3]%float.
Proof.
  assert (H : forall c, c ∈ [0] -> elt [1; 2]%float c = elt [1; 3]%float c).
  { intros c Hc. apply elem_of_cons in Hc as [->|Hc]; [reflexivity|].
    apply elem_of_nil in Hc. destruct Hc. }
  split; [exact H|].
  exact (proj1 (rowSums_read_given_columns_only [0] [0] 0 [[1; 1]]%float
                  [1; 2]%float [1; 3]%float H)).
Defined.

Lemma solve_without_iterations_witness :
  [0] <> [] /\ (m_maxIters noBudgetSolver <= 0)%Z /\
  result (solve noBudgetSolver 0 [0] [[1]]%float [] [1]%float [0]%float
            boundedOnly) = false.
Proof.
  assert (H1 : [0] <> []) by discriminate.
  assert (H2 : (m_maxIters noBudgetSolver <= 0)%Z) by (cbn; lia).
  split; [exact H1|]. split; [exact H2|].
  exact (proj1 (solve_without_iterations noBudgetSolver 0 [0] [[1]]%float []
                  [1]%float [0]%float boundedOnly H1 H2)).
Defined.

Lemma boundScalar_clamps_witness :
  (0 <= 1)%R /\
  (0 <= snd (boundScalar 0 5 1) <= 1)%R /\
  snd (boundScalar 0%R 5%R 1%R) = Rmax 0 (Rmin 5 1).
Proof.
  assert (H : (0 <= 1)%R) by lra.
  split; [exact H|].
  destruct (boundScalar_clamps 0%R 5%R 1%R H) as (Hin & Hmax & _).
  split; [exact Hin | exact Hmax].
Defined.

Lemma normalBody_enforces_sign_witness :
  UniContactRT.m_type (idealContact Participate) = Participate /\
  Rle (Rmult (UniContactRT.m_sign (idealContact Participate))
         (elt (sw_pi (snd (normalBody [0; 1; 2] idealIdentity3 [1; 1; 1]%R
                             1%R (idealContact Participate)
                             idealSweepStart))) 2))
      0.
Proof.
  assert (H1 : UniContactRT.m_type (idealContact Participate) = Participate)
    by reflexivity.
  assert (H2 : UniContactRT.m_Nk (idealContact Participate)
               < length (sw_pi idealSweepStart)) by (cbn; lia).
  split; [exact H1|].
  exact (proj1 (normalBody_enforces_sign [0; 1; 2] idealIdentity3
                  [1; 1; 1]%R 1%R (idealContact Participate)
                  idealSweepStart H1 H2)).
Defined.

Lemma boundedBody_within_bounds_witness :
  (BoundedRT.m_lb idealBounded <= BoundedRT.m_ub idealBounded)%R /\
  (Rle 0 (elt (sw_pi (snd (boundedBody [0; 1; 2] idealIdentity3
                             [1; 1; 1]%R 1%R idealBounded
                             idealSweepStart))) 0) /\
   Rle (elt (sw_pi (snd (boundedBody [0; 1; 2] idealIdentity3
                           [1; 1; 1]%R 1%R idealBounded
                           idealSweepStart))) 0) 1).
Proof.
  assert (H1 : (BoundedRT.m_lb idealBounded <= BoundedRT.m_ub idealBounded)%R)
    by (cbn; lra).
  assert (H2 : BoundedRT.m_ix idealBounded < length (sw_pi idealSweepStart))
    by (cbn; lia).
  split; [exact H1|].
  exact (proj1 (boundedBody_within_bounds [0; 1; 2] idealIdentity3
                  [1; 1; 1]%R 1%R idealBounded idealSweepStart H1 H2)).
Defined.

Lemma solve_keeps_a_solution_witness :
  [0] <> [] /\ (0 < m_convergenceTol idealSolver)%R /\
  out_pi (solve idealSolver 0 [0] [[2]]%R [] [4]%R [2]%R uncondSingle)
  = [2]%R.
Proof.
  assert (H1 : [0] <> []) by discriminate.
  assert (H2 : (1 <= m_maxIters idealSolver)%Z) by (cbn; lia).
  assert (H3 : (0 < m_convergenceTol idealSolver)%R) by (cbn; lra).
  assert (H4 : forall rt row, rt ∈ unconditional uncondSingle ->
                 row ∈ UncondRT.m_mults rt ->
                 doRowSum [0] row [[2]]%R [2]%R = elt [4]%R row).
  { intros rt row Hrt Hrow. cbn in Hrt.
    apply elem_of_cons in Hrt as [->|Hrt];
      [|apply elem_of_nil in Hrt; destruct Hrt].
    cbn in Hrow.
    apply elem_of_cons in Hrow as [->|Hrow];
      [|apply elem_of_nil in Hrow; destruct Hrow].
    cbn. lra. }
  split; [exact H1|]. split; [exact H3|].
  destruct (solve_keeps_a_solution idealSolver 0 [0] [[2]]%R [] [4]%R [2]%R
              uncondSingle H1 H2 H3 eq_refl eq_refl eq_refl eq_refl H4)
    as (_ & Hpi & _).
  exact Hpi.
Defined.

Lemma solve_needs_positive_tolerance_witness :
  [0] <> [] /\ (m_convergenceTol zeroTolSolver <= 0)%R /\
  result (solve zeroTolSolver 0 [0] [[2]]%R [] [4]%R [2]%R uncondSingle)
  = false.
Proof.
  assert (H1 : [0] <> []) by discriminate.
  assert (H2 : (m_convergenceTol zeroTolSolver <= 0)%R) by (cbn; lra).
  split; [exact H1|]. split; [exact H2|].
  exact (proj1 (solve_needs_positive_tolerance zeroTolSolver 0 [0] [[2]]%R
                  [] [4]%R [2]%R uncondSingle H1 H2)).
Defined.

Lemma toB_fromB_round_trip_witness :
  (0 <= RigidBodyNode.nodeNum
          (RigidBodyNode.setNodeNum 1 RigidBodyNode.construct)
   < Z.of_nat (length [10; 20; 30]))%Z /\
  RigidBodyNode.fromB RigidBodyNode.construct [10; 20; 30] = None.
Proof.
  assert (H : (0 <= RigidBodyNode.nodeNum
                      (RigidBodyNode.setNodeNum 1 RigidBodyNode.construct)
               < Z.of_nat (length [10; 20; 30]))%Z) by (cbn; lia).
  split; [exact H|].
  destruct (toB_fromB_round_trip
              (RigidBodyNode.setNodeNum 1 RigidBodyNode.construct)
              RigidBodyNode.construct [10; 20; 30] 7 H) as (_ & Hnone & _).
  exact Hnone.
Defined.

Lemma boundFriction_by_computed_norms_witness :
  NoDup [0; 1] /\
  (norm2 [0; 1] [3; 4; 2]%float
   <=? 0x1p-1%float * 0x1p-1%float * norm2 [2] [3; 4; 2]%float)%re = false /\
  fst (boundFriction 0x1p-1%float [2] [0; 1] [3; 4; 2]%float) = Sliding /\
  elt (snd (boundFriction 0x1p-1%float [2] [0; 1] [3; 4; 2]%float)) 1
  = (4%float * real_sqrt (0x1p-1%float * 0x1p-1%float
                          * norm2 [2] [3; 4; 2]%float
                          / norm2 [0; 1] [3; 4; 2]%float))%re /\
  elt (snd (boundFriction 0x1p-1%float [2] [0; 1] [3; 4; 2]%float)) 2
  = 2%float.
Proof.
  assert (H1 : NoDup [0; 1]) by no_dup.
  assert (H2 : forall i, i ∈ [0; 1] -> i < length [3; 4; 2]%float)
    by in_range.
  assert (H3 : forall i, i ∈ [2] -> i ∉ [0; 1]).
  { intros i Hi. apply elem_of_cons in Hi as [->|Hi]; [not_in|].
    apply elem_of_nil in Hi. destruct Hi. }
  assert (H4 : (norm2 [0; 1] [3; 4; 2]%float
                <=? 0x1p-1%float * 0x1p-1%float
                    * norm2 [2] [3; 4; 2]%float)%re = false)
    by (vm_compute; reflexivity).
  split; [exact H1|]. split; [exact H4|].
  destruct (boundFriction_by_computed_norms 0x1p-1%float [2] [0; 1]
              [3; 4; 2]%float H1 H2 H3) as (_ & Hslide & Hout & _).
  destruct (Hslide H4) as [Hst Hscaled].
  split; [exact Hst|].
  assert (Hin : 1 ∈ [0; 1])
    by (apply list_elem_of_further, list_elem_of_here).
  split; [exact (Hscaled 1 Hin)|].
  apply Hout. not_in.
Defined.

Lemma sweep_friction_after_normals_witness :
  fst (forEach (normalBody [0; 1; 2] identity3 [3; 4; -2]%float 1%float)
         [sampleContact Participate]
         {| sw_pi := [0; 0; 0]%float; sum2all := 0%float;
            sum2enf := 0%float |})
  = [] ++ sampleContact Participate :: [] /\
  (2 ∉ concat (map (frictionWrites (Real := float)) [])) /\
  (2 ∉ [0; 1]) /\
  frictionBody [0; 1; 2] identity3 [3; 4; -2]%float 1%float
    (sampleContact Participate)
    {| sw_pi := [0; 0; -2]%float; sum2all := 4%float; sum2enf := 4%float |}
  = frictionStep_with_normal [0; 1; 2] identity3 [3; 4; -2]%float 1%float
      (-2)%float (sampleContact Participate)
      {| sw_pi := [0; 0; -2]%float; sum2all := 4%float;
         sum2enf := 4%float |} /\
  sweep [0; 1; 2] identity3 [3; 4; -2]%float 1%float contactOnly
    [0; 0; 0]%float
  = ({| unconditional := [];
        uniContact :=
          [UniContactRT.set_frictionCond Sliding (sampleContact Participate)];
        uniSpeed := []; bounded := [];
        consLtdFriction := []; stateLtdFriction := [] |},
     {| sw_pi := [0x1.3333333333334p-1; 0x1.999999999999ap-1; -2]%float;
        sum2all := 29%float; sum2enf := 4%float |}).
Proof.
  assert (H1 : fst (forEach
                      (normalBody [0; 1; 2] identity3 [3; 4; -2]%float 1%float)
                      (uniContact contactOnly)
                      (snd (forEach
                              (uncondBody [0; 1; 2] identity3 [3; 4; -2]%float
                                 1%float)
                              (unconditional contactOnly)
                              {| sw_pi := [0; 0; 0]%float;
                                 sum2all := real_zero;
                                 sum2enf := real_zero |})))
                = [] ++ sampleContact Participate :: [])
    by (vm_compute; reflexivity).
  assert (H2 : 2 ∉ concat (map (frictionWrites (Real := float)) []))
    by apply not_elem_of_nil.
  assert (H3 : 2 ∉ [0; 1]) by not_in.
  split; [exact H1|]. split; [exact H2|]. split; [exact H3|].
  destruct (sweep_friction_after_normals [0; 1; 2] identity3
              [3; 4; -2]%float 1%float contactOnly [0; 0; 0]%float
              [] [] (sampleContact Participate) H1 H2 H3)
    as (_ & _ & Hstep & _).
  assert (H4 : UniContactRT.m_type (sampleContact Participate) <> Observe)
    by discriminate.
  split; [exact (Hstep eq_refl H4)|].
  vm_compute. reflexivity.
Defined.
End MoreSamples.
